(** * Retro-game music generator: a shallow embedding of [main.py]

    The generative core of the program (scale catalog, chord progression
    model, melody, harmony and bass engines, and the orchestrator
    [generate_music]) is embedded as Rocq functions.

    - Python values that flow through the engines are strings, floats and
      tuples; they are modelled by [value].  The float literals of the
      program ([0.25], [0.5], ...) are only stored and copied, never
      computed with, so they are represented by the rational they denote.
    - Python exceptions are modelled by [exn], fallible code returns
      [result].
    - The process-wide [random] module is an explicit random source
      ([RandomSource]) threaded through the code that draws from it. *)

From stdpp Require Import gmap strings list fin_maps numbers.
From Stdlib Require Import QArith.

Set Warnings "-register-all".

Local Open Scope string_scope.
Local Open Scope list_scope.
Local Open Scope Z_scope.

(** ** Python values, exceptions *)

Inductive value : Type :=
| VStr (s : string)
| VFloat (q : Q)
| VTuple (items : list value).

Inductive exn : Type :=
| IndexError | KeyError | ValueError | TypeError | ZeroDivisionError.

Inductive result (A : Type) : Type :=
| Ok (a : A)
| Raise (e : exn).
Arguments Ok {A} a.
Arguments Raise {A} e.

Definition rbind {A B} (m : result A) (k : A → result B) : result B :=
  match m with
  | Ok a => k a
  | Raise e => Raise e
  end.

Notation "x ←? m ; k" := (rbind m (λ x, k))
  (at level 100, m at next level, right associativity, only parsing).

(** A list comprehension whose element expression may raise: elements are
    evaluated left to right, the first exception aborts. *)
Fixpoint comprehension {A B} (f : A → result B) (l : list A) : result (list B) :=
  match l with
  | [] => Ok []
  | x :: l' => y ←? f x; ys ←? comprehension f l'; Ok (y :: ys)
  end.

(** [isinstance(v, tuple)] and [isinstance(v, str)]. *)
Definition is_tuple (v : value) : bool :=
  match v with VTuple _ => true | _ => false end.

Definition is_str (v : value) : bool :=
  match v with VStr _ => true | _ => false end.

(** [seq[i]] for a Python list or tuple and an integer [i]: negative
    indices count from the end, anything else out of range raises. *)
Definition py_index {A} (l : list A) (i : Z) : result A :=
  let n := Z.of_nat (length l) in
  let j := if i <? 0 then i + n else i in
  if (j <? 0) || (n <=? j) then Raise IndexError
  else match l !! Z.to_nat j with
       | Some x => Ok x
       | None => Raise IndexError
       end.

(** [a % b] on Python integers. *)
Definition py_mod (a b : Z) : result Z :=
  if b =? 0 then Raise ZeroDivisionError else Ok (a mod b).

(** [d[k]] on a dict. *)
Definition py_getitem {V} (d : gmap string V) (k : string) : result V :=
  match d !! k with
  | Some v => Ok v
  | None => Raise KeyError
  end.

(** Position of the first occurrence of [s] in [l]. *)
Fixpoint index_from (s : string) (l : list string) (i : Z) : result Z :=
  match l with
  | [] => Raise ValueError
  | x :: l' => if decide (x = s) then Ok i else index_from s l' (i + 1)
  end.

(** [l.index(v)] on a list of strings: a value that is not a string is
    equal to no element. *)
Definition py_list_index (l : list string) (v : value) : result Z :=
  match v with
  | VStr s => index_from s l 0
  | _ => Raise ValueError
  end.

(** ** Constants *)

Definition MELODY_LENGTH : nat := 64.
Definition DEFAULT_SCALE : string := "minor".
Definition MELODY_VELOCITY : Z := 100.
Definition HARMONY_VELOCITY : Z := 70.
Definition BASS_VELOCITY : Z := 80.

(** ** MusicScale *)

Module MusicScale.

Definition scales : gmap string (list Z) :=
  <["major" := [0; 2; 4; 5; 7; 9; 11]]>
  (<["minor" := [0; 2; 3; 5; 7; 8; 10]]>
  (<["dorian" := [0; 2; 3; 5; 7; 9; 10]]>
  (<["mixolydian" := [0; 2; 4; 5; 7; 9; 10]]> ∅))).

Definition notes : list string := ["C"; "D"; "E"; "F"; "G"; "A"; "B"].

(** [self.scales.get(scale, [])] *)
Definition get_scale_degrees (scale : string) : list Z :=
  default [] (scales !! scale).

End MusicScale.

(** The four registered scale names. *)
Definition builtin_scales : list string :=
  ["major"; "minor"; "dorian"; "mixolydian"].

(** ** The random source

    [random.choice] reads and advances the state of the process-wide
    generator.  The generator is a parameter of the embedding: a state type
    with the primitive [randbelow n], which returns a number below [n] and
    the next state. *)

Class RandomSource (R : Type) := {
  randbelow : nat → R → nat * R;
  randbelow_lt n r : (0 < n)%nat → ((randbelow n r).1 < n)%nat
}.

(** Code that draws random numbers and may raise: the state of the random
    source is threaded, an exception leaves it where it was raised. *)
Definition M (R A : Type) : Type := R → result A * R.

Definition ret {R A} (a : A) : M R A := λ r, (Ok a, r).

Definition bind {R A B} (m : M R A) (k : A → M R B) : M R B :=
  λ r, match m r with
       | (Ok a, r') => k a r'
       | (Raise e, r') => (Raise e, r')
       end.

Definition lift {R A} (x : result A) : M R A := λ r, (x, r).

Notation "x ←$ m ; k" := (bind m (λ x, k))
  (at level 100, m at next level, right associativity, only parsing).

(** [for _ in range(n): st = body(st)] *)
Fixpoint for_range {R S} (n : nat) (body : S → M R S) (st : S) : M R S :=
  match n with
  | O => ret st
  | S n' => st' ←$ body st; for_range n' body st'
  end.

(** [random.choice(seq)]: raises [IndexError] on an empty sequence,
    otherwise returns [seq[randbelow(len(seq))]]. *)
Definition choice `{RandomSource R} {A} (seq : list A) : M R A :=
  λ r, match seq with
       | [] => (Raise IndexError, r)
       | _ => let '(i, r') := randbelow (length seq) r in
              (py_index seq (Z.of_nat i), r')
       end.

(** A reproducible random source: a linear congruential generator. *)
Definition lcg_next (s : N) : N := ((s * 1103515245 + 12345) mod 2147483648)%N.

Definition lcg_randbelow (n : nat) (s : N) : nat * N :=
  (N.to_nat (s mod N.of_nat n)%N, lcg_next s).

Lemma lcg_randbelow_lt n s : (0 < n)%nat → ((lcg_randbelow n s).1 < n)%nat.
Proof.
  intros Hn. simpl.
  assert (s mod N.of_nat n < N.of_nat n)%N by (apply N.mod_lt; lia). lia.
Qed.

#[export] Instance lcg_source : RandomSource N :=
  {| randbelow := lcg_randbelow; randbelow_lt := lcg_randbelow_lt |}.

(** ** ChordProgressionGenerator *)

Module ChordProgressionGenerator.

Definition chord_progressions : list (list string) :=
  [ ["I"; "IV"; "V"];
    ["ii"; "V"; "I"];
    ["vi"; "IV"; "I"; "V"];
    ["ii"; "V"; "I"; "IV"];
    ["I"; "iii"; "IV"; "ii"; "V"; "vi"] ].

Definition chord_symbols_to_degrees : gmap string Z :=
  <["I" := 0]> (<["ii" := 1]> (<["iii" := 2]> (<["IV" := 3]>
  (<["V" := 4]> (<["vi" := 5]> (<["vii" := 6]> ∅)))))).

(** The scale argument is accepted and not used. *)
Definition generate_chord_progression `{RandomSource R} (scale : string)
  : M R (list string) :=
  choice chord_progressions.

Definition get_harmonic_notes (chord_symbol scale : string)
  : result (list string) :=
  chord_degree ←? py_getitem chord_symbols_to_degrees chord_symbol;
  let scale_degrees := MusicScale.get_scale_degrees scale in
  comprehension
    (λ degree,
       i ←? py_mod (chord_degree + degree)
              (Z.of_nat (length MusicScale.notes));
       py_index MusicScale.notes i)
    scale_degrees.

End ChordProgressionGenerator.

(** ** RetroGameMelodyGenerator *)

Module RetroGameMelodyGenerator.
Import MusicScale ChordProgressionGenerator.

Definition note_durations : list Q :=
  [1 # 4; 1 # 2; 3 # 4; 1 # 1; 3 # 2; 2 # 1]%Q.

Section with_random.
Context `{RandomSource R}.

(** One iteration of the loop of [generate_melody]; the loop state is
    the list [melody] and the running [current_degree]. *)
Definition melody_step (chord_progression : list string)
    (scale_degrees : list Z) (st : list value * Z)
  : M R (list value * Z) :=
  let '(melody, current_degree) := st in
  chord_symbol ←$ choice chord_progression;
  chord_degree ←$ lift (py_getitem chord_symbols_to_degrees chord_symbol);
  let available_steps := [1; 2; 3; 4; 5; 6] in
  let available_steps :=
    if bool_decide (chord_degree ∈ [0; 3; 4; 6])
    then available_steps ++ [6; 7; 8] else available_steps in
  step ←$ choice available_steps;
  current_degree ←$ lift (py_mod (current_degree + step)
                            (Z.of_nat (length scale_degrees)));
  note_duration ←$ choice note_durations;
  note ←$ lift (py_index notes current_degree);
  ret (melody ++ [VTuple [VStr note; VFloat note_duration]],
       current_degree).

Definition generate_melody (chord_progression : list string)
    (scale : string) : M R (list value) :=
  let scale_degrees := get_scale_degrees scale in
  let melody := [] in
  current_degree ←$ choice scale_degrees;
  i ←$ lift (py_mod current_degree (Z.of_nat (length notes)));
  note ←$ lift (py_index notes i);
  let melody := melody ++ [VStr note] in
  st ←$ for_range (MELODY_LENGTH - 1)
          (melody_step chord_progression scale_degrees)
          (melody, current_degree);
  ret st.1.

End with_random.
End RetroGameMelodyGenerator.

(** ** Subscripting and unpacking of values *)

(** The one-character strings of a string, in order. *)
Fixpoint chars (s : string) : list string :=
  match s with
  | EmptyString => []
  | String c s' => String c EmptyString :: chars s'
  end.

(** [v[i]] *)
Definition py_subscript (v : value) (i : Z) : result value :=
  match v with
  | VTuple items => py_index items i
  | VStr s => c ←? py_index (chars s) i; Ok (VStr c)
  | VFloat _ => Raise TypeError
  end.

(** [a, b = v]: [v] must be iterable and yield exactly two items. *)
Definition unpack2 (v : value) : result (value * value) :=
  match v with
  | VTuple [a; b] => Ok (a, b)
  | VTuple _ => Raise ValueError
  | VStr s => match chars s with
              | [a; b] => Ok (VStr a, VStr b)
              | _ => Raise ValueError
              end
  | VFloat _ => Raise TypeError
  end.

(** ** RetroGameHarmonyGenerator *)

Module RetroGameHarmonyGenerator.
Import MusicScale ChordProgressionGenerator.

(** The loop that extends [harmonic_notes] with the notes of each chord
    symbol of the progression. *)
Fixpoint extend_harmonic_notes (harmonic_notes : list string)
    (chord_progression : list string) (scale : string)
  : result (list string) :=
  match chord_progression with
  | [] => Ok harmonic_notes
  | chord_symbol :: rest =>
      chord_notes ←? get_harmonic_notes chord_symbol scale;
      extend_harmonic_notes (harmonic_notes ++ chord_notes) rest scale
  end.

(** The element expression of the two comprehensions, with the offset
    ([2] in the first, [4] in the second) as a parameter. *)
Definition harmony_entry (offset : Z) (harmonic_notes : list string)
    (note : value) : result value :=
  if is_tuple note then
    n0 ←? py_subscript note 0;
    idx ←? py_list_index notes n0;
    i ←? py_mod (idx + offset) (Z.of_nat (length harmonic_notes));
    h ←? py_index harmonic_notes i;
    Ok (VTuple [VStr h; VFloat (1 # 4)])
  else Ok (VTuple [note; VFloat (1 # 4)]).

Definition generate_harmony (melody : list value)
    (chord_progression : list string) (scale : string)
  : result (list value) :=
  harmonic_notes ←? extend_harmonic_notes [] chord_progression scale;
  first ←? comprehension (harmony_entry 2 harmonic_notes) melody;
  second ←? comprehension (harmony_entry 4 harmonic_notes) melody;
  Ok (first ++ second).

End RetroGameHarmonyGenerator.

(** ** RetroGameBassGenerator *)

Module RetroGameBassGenerator.
Import MusicScale.

(** The branch taken when the unpacked [note] is a tuple. *)
Definition transposed_bass_note (scale_degrees : list Z) (note : value)
  : result string :=
  n0 ←? py_subscript note 0;
  note_degree ←? py_list_index notes n0;
  bass_note_degree ←? py_mod (note_degree - 9)
                        (Z.of_nat (length scale_degrees));
  degree ←? py_index scale_degrees bass_note_degree;
  py_index notes degree.

(** The body of the loop: the melody entry is unpacked into [note] and
    [duration], then [note] is tested. *)
Definition bass_entry (scale_degrees : list Z) (entry : value)
  : result value :=
  unpacked ←? unpack2 entry;
  let '(note, duration) := unpacked in
  if is_tuple note then
    bass_note ←? transposed_bass_note scale_degrees note;
    Ok (VTuple [VStr bass_note; duration])
  else Ok (VTuple [note; duration]).

(** The loop appends one event per melody entry to an empty list, in
    order; the first exception aborts it. *)
Definition generate_bass (melody : list value) (scale : string)
  : result (list value) :=
  let scale_degrees := get_scale_degrees scale in
  comprehension (bass_entry scale_degrees) melody.

End RetroGameBassGenerator.

(** ** RetroGameMidiGenerator

    The [MIDIFile] object is outside the program.  What is modelled of it
    is the sequence of [addNote] calls it has received, each assumed to
    return; an [addNote] call made before an exception stays recorded.

    Times are Python numbers (the integer [0] at first, then sums of
    durations).  Their type [num] and the addition [add time dur] of a
    duration to a time, which may raise, are parameters: nothing below
    depends on how numbers are added. *)

Module RetroGameMidiGenerator.

(** One call [midi.addNote(track, channel, pitch, time, duration, volume)]. *)
Record note_call (num : Type) : Type := NoteCall {
  call_track : Z;
  call_channel : Z;
  call_pitch : Z;
  call_time : num;
  call_duration : value;
  call_volume : Z
}.
Arguments NoteCall {num}.
Arguments call_track {num}.
Arguments call_channel {num}.
Arguments call_pitch {num}.
Arguments call_time {num}.
Arguments call_duration {num}.
Arguments call_volume {num}.

(** [note in d] for a dict with string keys: a float or a tuple is
    hashable and equal to no key. *)
Definition py_contains (d : gmap string Z) (note : value) : bool :=
  match note with
  | VStr s => bool_decide (is_Some (d !! s))
  | _ => false
  end.

(** [d[note]] *)
Definition py_getitem_value (d : gmap string Z) (note : value) : result Z :=
  match note with
  | VStr s => py_getitem d s
  | _ => Raise KeyError
  end.

Section with_numbers.
Context {num : Type} (add : num → value → result num).

(** The loop of [add_notes_to_midi] over the (note, velocity, dur) triples:
    it returns the calls the [midi] object has received and either the
    final value of the local variable [time] or the exception raised. *)
Fixpoint add_notes_loop (note_to_midi : gmap string Z) (track : Z)
    (midi : list (note_call num)) (time : num)
    (notes : list (value * Z * value))
  : list (note_call num) * result num :=
  match notes with
  | [] => (midi, Ok time)
  | (note, velocity, dur) :: rest =>
      if py_contains note_to_midi note then
        match py_getitem_value note_to_midi note with
        | Raise e => (midi, Raise e)
        | Ok pitch =>
            let midi := midi ++ [NoteCall track 0 pitch time dur velocity] in
            match add time dur with
            | Raise e => (midi, Raise e)
            | Ok time => add_notes_loop note_to_midi track midi time rest
            end
        end
      else add_notes_loop note_to_midi track midi time rest
  end.

(** [add_notes_to_midi(midi, notes, time, track)] returns [None]; its
    effect is on [midi]. *)
Definition add_notes_to_midi (note_to_midi : gmap string Z)
    (midi : list (note_call num)) (notes : list (value * Z * value))
    (time : num) (track : Z) : list (note_call num) * result unit :=
  let '(midi, r) := add_notes_loop note_to_midi track midi time notes in
  (midi, _ ←? r; Ok tt).

End with_numbers.
End RetroGameMidiGenerator.

(** ** RetroGameMusicGenerator *)

Module RetroGameMusicGenerator.
Import ChordProgressionGenerator.
Import RetroGameMelodyGenerator RetroGameHarmonyGenerator.
Import RetroGameBassGenerator.

(** [self.duration] *)
Definition duration : Q := (1 # 4)%Q.

(** What [generate_music] returns: three lists, or three [None]. *)
Definition composition : Type :=
  option (list value) * option (list value) * option (list value).

(** [[(note, self.duration) if isinstance(note, str) else note
      for note in melody]] *)
Definition normalize (melody : list value) : list value :=
  (λ note, if is_str note then VTuple [note; VFloat duration] else note)
    <$> melody.

Section with_random.
Context `{RandomSource R}.

(** The body of the [try] block, for the generator built with
    [scale]. *)
Definition try_generate (scale : string)
  : M R (list value * list value * list value) :=
  chord_progression ←$ generate_chord_progression scale;
  melody ←$ generate_melody chord_progression scale;
  let melody := normalize melody in
  harmony ←$ lift (generate_harmony melody chord_progression scale);
  bass ←$ lift (generate_bass melody scale);
  ret (melody, harmony, bass).

(** [except Exception]: every exception of the body is caught and
    turned into [(None, None, None)]. *)
Definition generate_music (scale : string) : R → composition * R :=
  λ r, match try_generate scale r with
       | (Ok (melody, harmony, bass), r') =>
           ((Some melody, Some harmony, Some bass), r')
       | (Raise _, r') => ((None, None, None), r')
       end.

End with_random.
(** [self.note_to_midi] *)
Definition note_to_midi : gmap string Z :=
  <["C" := 60]> (<["D" := 62]> (<["E" := 64]> (<["F" := 65]>
  (<["G" := 67]> (<["A" := 69]> (<["B" := 71]> ∅)))))).

Section with_numbers.
Import RetroGameMidiGenerator.
Context {num : Type} (zero : num) (add : num → value → result num).
(** The built-in [sum] over a sequence of durations, a parameter as well:
    it need not round as repeated addition does. *)
Context (total : list value → result num).

(** [[(note, velocity, dur) for note, dur in events]] *)
Definition with_velocity (velocity : Z) (events : list value)
  : result (list (value * Z * value)) :=
  comprehension
    (λ e, unpacked ←? unpack2 e;
          let '(note, dur) := unpacked in Ok (note, velocity, dur))
    events.

(** The durations [dur for _, _, dur in notes] that are summed. *)
Definition durations (notes : list (value * Z * value)) : list value :=
  (λ n, n.2) <$> notes.

(** The body of the [try] block of [save_to_midi], up to the calls the
    [MIDIFile] object has received when it is handed to [writeFile]. *)
Definition try_save (melody harmony bass : list value)
  : result (list (note_call num)) :=
  let midi := [] in
  let time := zero in
  melody_notes ←? with_velocity MELODY_VELOCITY melody;
  harmony_notes ←? with_velocity HARMONY_VELOCITY harmony;
  bass_notes ←? with_velocity BASS_VELOCITY bass;
  let '(midi, r) := add_notes_to_midi add note_to_midi midi melody_notes time 0 in
  _ ←? r;
  time ←? total (durations melody_notes);
  let '(midi, r) := add_notes_to_midi add note_to_midi midi harmony_notes time 1 in
  _ ←? r;
  time ←? total (durations harmony_notes);
  let '(midi, r) := add_notes_to_midi add note_to_midi midi bass_notes time 2 in
  _ ←? r;
  Ok midi.

(** [save_to_midi]: the content written, or [None] when an exception was
    caught before the file is written (the exception is logged, not
    propagated).  Opening and writing the file are outside the model. *)
Definition save_to_midi (melody harmony bass : list value)
  : option (list (note_call num)) :=
  match try_save melody harmony bass with
  | Ok midi => Some midi
  | Raise _ => None
  end.

End with_numbers.

(** Times as exact rationals: an addition and a sum under which the model
    can be run.  Adding anything but a number raises [TypeError]. *)
Definition rational_add (time : Q) (dur : value) : result Q :=
  match dur with
  | VFloat q => Ok (Qred (time + q))
  | _ => Raise TypeError
  end.

Fixpoint rational_sum_from (acc : Q) (durs : list value) : result Q :=
  match durs with
  | [] => Ok acc
  | dur :: rest => acc ←? rational_add acc dur; rational_sum_from acc rest
  end.

Definition rational_sum (durs : list value) : result Q :=
  rational_sum_from 0%Q durs.

End RetroGameMusicGenerator.

(** ** Notions used to state the properties *)

(** A melody entry that is a (letter, duration) pair. *)
Definition letter_duration_pair (e : value) : Prop :=
  ∃ letter duration, e = VTuple [VStr letter; duration].

(** The bass note the transposition is meant to produce for a letter:
    [NoteAlphabet[degrees[(indexOf(letter) - 9) mod 7]]], indexing
    directly; [None] where an index is out of range. *)
Definition bass_note_of_letter (degrees : list Z) (letter : string)
  : option string :=
  match index_from letter MusicScale.notes 0 with
  | Ok idx =>
      match degrees !! Z.to_nat ((idx - 9) mod 7) with
      | Some d => if d <? 0 then None else MusicScale.notes !! Z.to_nat d
      | None => None
      end
  | Raise _ => None
  end.

(** A melody event produced by the loop of the melody engine: a pair of a
    letter of the alphabet and a duration of the fixed duration set. *)
Definition melody_pair_event (e : value) : Prop :=
  ∃ letter d, e = VTuple [VStr letter; VFloat d] ∧
    letter ∈ MusicScale.notes ∧
    d ∈ RetroGameMelodyGenerator.note_durations.

(** [indexOf(letter, alphabet)]: the position of the first occurrence. *)
Fixpoint indexOf (letter : string) (alphabet : list string) : Z :=
  match alphabet with
  | [] => 0
  | x :: rest => if decide (x = letter) then 0 else 1 + indexOf letter rest
  end.

(** The harmony event a melody entry contributes in the pass with the given
    offset, in the words of the specification: a (letter, duration) pair
    contributes [(pool[(indexOf(letter) + offset) mod len(pool)], 0.25)], a
    bare letter is emitted unchanged with the duration [0.25]. *)
Definition harmony_event (pool : list string) (offset : Z) (e : value)
  : value :=
  match e with
  | VTuple [VStr letter; _] =>
      let idx := indexOf letter MusicScale.notes in
      let i := (idx + offset) mod Z.of_nat (length pool) in
      VTuple [VStr (default "" (pool !! Z.to_nat i)); VFloat (1 # 4)]
  | _ => VTuple [e; VFloat (1 # 4)]
  end.

Definition harmony_pass (pool : list string) (offset : Z)
    (melody : list value) : list value :=
  harmony_event pool offset <$> melody.

(** A melody entry as the harmony engine expects it: a bare letter, or a
    pair of a letter of the alphabet and a duration. *)
Definition melody_entry (e : value) : Prop :=
  (∃ letter, e = VStr letter) ∨
  (∃ letter duration,
     e = VTuple [VStr letter; duration] ∧ letter ∈ MusicScale.notes).

(** A chord symbol that has an entry in [chord_symbols_to_degrees]. *)
Definition known_symbol (s : string) : Prop :=
  is_Some (ChordProgressionGenerator.chord_symbols_to_degrees !! s).

(** The steps of the orchestrated pipeline, on the random source state [r]:
    the choice of the progression, the melody, the harmony and the bass (the
    normalization in between cannot fail).  [step_fails] holds when one of
    them raises. *)
Section pipeline_steps.
Import ChordProgressionGenerator RetroGameMelodyGenerator.
Import RetroGameHarmonyGenerator RetroGameBassGenerator.
Import RetroGameMusicGenerator.
Context `{RandomSource R}.

Inductive step_fails (scale : string) (r : R) : Prop :=
| progression_fails e r1 :
    generate_chord_progression scale r = (Raise e, r1) →
    step_fails scale r
| melody_fails prog r1 e r2 :
    generate_chord_progression scale r = (Ok prog, r1) →
    generate_melody prog scale r1 = (Raise e, r2) →
    step_fails scale r
| harmony_fails prog r1 mel r2 e :
    generate_chord_progression scale r = (Ok prog, r1) →
    generate_melody prog scale r1 = (Ok mel, r2) →
    generate_harmony (normalize mel) prog scale = Raise e →
    step_fails scale r
| bass_fails prog r1 mel r2 e :
    generate_chord_progression scale r = (Ok prog, r1) →
    generate_melody prog scale r1 = (Ok mel, r2) →
    generate_bass (normalize mel) scale = Raise e →
    step_fails scale r.

(** No step raises, and the steps produce [melody], [harmony], [bass] and
    leave the random source in state [r']. *)
Inductive steps_succeed (scale : string) (r : R)
    (melody harmony bass : list value) (r' : R) : Prop :=
| all_steps_ok prog r1 mel :
    generate_chord_progression scale r = (Ok prog, r1) →
    generate_melody prog scale r1 = (Ok mel, r') →
    melody = normalize mel →
    generate_harmony melody prog scale = Ok harmony →
    generate_bass melody scale = Ok bass →
    steps_succeed scale r melody harmony bass r'.

End pipeline_steps.

(** Two states of random sources that cannot be told apart by drawing:
    [sim] relates them when every draw returns the same number from both
    and leaves them related.  Identical states of one source are the
    instance [sim := eq]. *)
Definition same_draws {R1 R2} `{RandomSource R1} `{RandomSource R2}
    (sim : R1 → R2 → Prop) : Prop :=
  ∀ n r1 r2, sim r1 r2 →
    (randbelow n r1).1 = (randbelow n r2).1 ∧
    sim (randbelow n r1).2 (randbelow n r2).2.

(** Two computations agree when, from related states, they return the same
    result (value or exception) and end in related states. *)
Definition agree {R1 R2 A} (sim : R1 → R2 → Prop)
    (m1 : M R1 A) (m2 : M R2 A) : Prop :=
  ∀ r1 r2, sim r1 r2 →
    (m1 r1).1 = (m2 r2).1 ∧ sim (m1 r1).2 (m2 r2).2.

(** The entries whose note is a key of the table. *)
Definition playable (d : gmap string Z) (notes : list (value * Z * value))
  : list (value * Z * value) :=
  List.filter (λ n, RetroGameMidiGenerator.py_contains d n.1.1) notes.

(** What a new call carries. *)
Definition call_of {num} (d : gmap string Z) (track : Z)
    (n : value * Z * value) (c : RetroGameMidiGenerator.note_call num)
  : Prop :=
  RetroGameMidiGenerator.call_track c = track ∧ RetroGameMidiGenerator.call_channel c = 0 ∧
  (∃ s, n.1.1 = VStr s ∧ d !! s = Some (RetroGameMidiGenerator.call_pitch c)) ∧
  RetroGameMidiGenerator.call_duration c = n.2 ∧ RetroGameMidiGenerator.call_volume c = n.1.2.

(** An event that can be played: a letter of the alphabet with a float
    duration. *)
Definition playable_event (e : value) : Prop :=
  ∃ letter q, e = VTuple [VStr letter; VFloat q] ∧ letter ∈ MusicScale.notes.

(** The triple built from a playable event. *)
Definition playable_note (n : value * Z * value) : Prop :=
  ∃ letter q,
    n.1.1 = VStr letter ∧ letter ∈ MusicScale.notes ∧ n.2 = VFloat q.

(** Each call starts where the previous one ends: the time of a call is the
    time of the call before it plus that call's duration. *)
Definition back_to_back {num} (add : num → value → result num)
    (calls : list (RetroGameMidiGenerator.note_call num)) : Prop :=
  ∀ i c c', calls !! i = Some c → calls !! S i = Some c' →
    add (RetroGameMidiGenerator.call_time c)
        (RetroGameMidiGenerator.call_duration c)
    = Ok (RetroGameMidiGenerator.call_time c').

(** Two melody entries the harmony engine cannot tell apart: the same
    entry, or two tuples with the same first component. *)
Definition same_note (e e' : value) : Prop :=
  e = e' ∨ ∃ note rest rest', e = VTuple (note :: rest) ∧
                               e' = VTuple (note :: rest').

(** A chord symbol of the table whose degree is not one of the strong
    degrees [0, 3, 4, 6]: the step pool is not extended for it. *)
Definition weak_symbol (s : string) : Prop :=
  ∃ cd, ChordProgressionGenerator.chord_symbols_to_degrees !! s = Some cd ∧
        cd ∉ [0; 3; 4; 6].

(** The letter of a melody entry, bare or paired with a duration. *)
Definition letter_of (e : value) : option string :=
  match e with
  | VStr letter => Some letter
  | VTuple (VStr letter :: _) => Some letter
  | _ => None
  end.

(** No two consecutive letters are equal. *)
Fixpoint no_repeat (letters : list string) : Prop :=
  match letters with
  | a :: (b :: _) as rest => a ≠ b ∧ no_repeat rest
  | _ => True
  end.

(** * Properties *)

(** ** The Python primitives *)

Section primitives.

Lemma py_index_lookup {A} (l : list A) (i : nat) (x : A) :
  l !! i = Some x → py_index l (Z.of_nat i) = Ok x.
Proof.
  intros Hx. pose proof (lookup_lt_Some _ _ _ Hx) as Hlt.
  unfold py_index.
  replace (Z.of_nat i <? 0) with false by lia.
  replace ((Z.of_nat i <? 0) || (Z.of_nat (length l) <=? Z.of_nat i))
    with false by lia.
  by rewrite Nat2Z.id, Hx.
Qed.

Lemma py_index_in_range {A} (l : list A) (i : Z) :
  0 ≤ i < Z.of_nat (length l) →
  ∃ x, py_index l i = Ok x ∧ l !! Z.to_nat i = Some x.
Proof.
  intros Hi. destruct (lookup_lt_is_Some_2 l (Z.to_nat i)) as [x Hx]; [lia |].
  exists x. split; [| done].
  rewrite <- (Z2Nat.id i) by lia. by apply py_index_lookup.
Qed.

Lemma comprehension_map {A B} (f : A → result B) (g : A → B) (l : list A) :
  Forall (λ x, f x = Ok (g x)) l → comprehension f l = Ok (g <$> l).
Proof.
  induction 1 as [| x l Hx _ IH]; simpl; [done |].
  rewrite Hx; simpl; rewrite IH; done.
Qed.

Lemma comprehension_id {A} (f : A → result A) (l : list A) :
  Forall (λ x, f x = Ok x) l → comprehension f l = Ok l.
Proof.
  intros Hl. rewrite (comprehension_map f id) by done. by rewrite list_fmap_id.
Qed.

Lemma index_from_indexOf letter l i :
  letter ∈ l → index_from letter l i = Ok (i + indexOf letter l).
Proof.
  revert i. induction l as [| x l IH]; intros i Hin; [by inversion Hin |].
  simpl. destruct (decide (x = letter)) as [-> | Hne].
  - f_equal. lia.
  - rewrite IH; [f_equal; lia |].
    apply elem_of_cons in Hin as [-> | ?]; done.
Qed.

Lemma indexOf_nonneg letter l : 0 ≤ indexOf letter l.
Proof. induction l as [| x l IH]; simpl; [lia |]. destruct (decide _); lia. Qed.

End primitives.

(** ** The scale catalog *)

Section scale_catalog.
Import MusicScale.

Lemma get_scale_degrees_builtin scale :
  scale ∈ builtin_scales →
  length (get_scale_degrees scale) = 7%nat ∧
  Forall (λ d, 0 ≤ d ≤ 11) (get_scale_degrees scale).
Proof.
  unfold builtin_scales. rewrite !elem_of_cons, elem_of_nil.
  intros [-> | [-> | [-> | [-> | []]]]];
    (split; [reflexivity | repeat constructor; lia]).
Qed.

Lemma scales_lookup_other scale :
  scale ∉ builtin_scales → scales !! scale = None.
Proof.
  unfold builtin_scales. rewrite !not_elem_of_cons. intros (? & ? & ? & ? & _).
  unfold scales. by rewrite !lookup_insert_ne, lookup_empty.
Qed.

Lemma get_scale_degrees_other scale :
  scale ∉ builtin_scales → get_scale_degrees scale = [].
Proof.
  intros H. unfold get_scale_degrees. by rewrite scales_lookup_other.
Qed.

End scale_catalog.


(** C9.  [get_scale_degrees] is a total function (a [dict.get] with a
    default, no exception can be raised): for each of the four registered
    names it returns exactly 7 integers, each in [0,11], and for every other
    name it returns the empty list. *)
Theorem get_scale_degrees_contract (scale : string) :
  (scale ∈ builtin_scales →
     length (MusicScale.get_scale_degrees scale) = 7%nat ∧
     Forall (λ d, 0 ≤ d ≤ 11) (MusicScale.get_scale_degrees scale)) ∧
  (scale ∉ builtin_scales → MusicScale.get_scale_degrees scale = []).
Proof.
  split; [apply get_scale_degrees_builtin | apply get_scale_degrees_other].
Qed.

Lemma get_scale_degrees_contract_witness :
  ("dorian" ∈ builtin_scales ∧
   length (MusicScale.get_scale_degrees "dorian") = 7%nat ∧
   Forall (λ d, 0 ≤ d ≤ 11) (MusicScale.get_scale_degrees "dorian")) ∧
  (("lydian" ∉ builtin_scales) ∧ MusicScale.get_scale_degrees "lydian" = []).
Proof.
  split.
  - assert (Hin : "dorian" ∈ builtin_scales) by compute_done.
    split; [exact Hin |].
    exact (proj1 (get_scale_degrees_contract "dorian") Hin).
  - assert (Hout : "lydian" ∉ builtin_scales) by compute_done.
    split; [exact Hout |].
    exact (proj2 (get_scale_degrees_contract "lydian") Hout).
Defined.

Section harmonic_notes.
Import ChordProgressionGenerator.

Lemma harmonic_notes_I_major_not_diatonic :
  get_harmonic_notes "I" "major" ≠ Ok ["C"; "D"; "E"; "F"; "G"; "A"; "B"].
Proof. vm_compute. discriminate. Qed.

(** C4.  For symbol [I] and scale [major], [get_harmonic_notes] returns
    the letters at the indices [(0 + g) mod 7] for [g] in
    [0,2,4,5,7,9,11], that is [C,E,G,A,C,E,G], and not the diatonic
    spelling [C,D,E,F,G,A,B]. *)
Theorem harmonic_notes_I_major :
  get_harmonic_notes "I" "major" = Ok ["C"; "E"; "G"; "A"; "C"; "E"; "G"].
Proof. reflexivity. Qed.

End harmonic_notes.

(** ** The bass engine *)

Section bass.
Import MusicScale RetroGameBassGenerator.

Lemma bass_entry_pair scale_degrees e :
  letter_duration_pair e → bass_entry scale_degrees e = Ok e.
Proof. intros (letter & duration & ->). reflexivity. Qed.

(** C2.  On a melody that consists only of (letter, duration) pairs,
    [generate_bass] returns the melody itself: after unpacking, [note] is a
    string, the tuple test fails and the entry is appended as it is. *)
Theorem generate_bass_pairs_unchanged (melody : list value) (scale : string) :
  Forall letter_duration_pair melody →
  generate_bass melody scale = Ok melody.
Proof.
  intros Hm. unfold generate_bass. apply comprehension_id.
  eapply List.Forall_impl; [| exact Hm]. intros e. apply bass_entry_pair.
Qed.

Lemma generate_bass_pairs_unchanged_witness :
  Forall letter_duration_pair
    [VTuple [VStr "E"; VFloat (1 # 2)]; VTuple [VStr "C"; VFloat (1 # 4)]] ∧
  generate_bass
    [VTuple [VStr "E"; VFloat (1 # 2)]; VTuple [VStr "C"; VFloat (1 # 4)]]
    "major"
  = Ok [VTuple [VStr "E"; VFloat (1 # 2)]; VTuple [VStr "C"; VFloat (1 # 4)]].
Proof.
  assert (Hm : Forall letter_duration_pair
    [VTuple [VStr "E"; VFloat (1 # 2)]; VTuple [VStr "C"; VFloat (1 # 4)]]).
  { repeat constructor; eexists _, _; reflexivity. }
  split; [exact Hm |].
  exact (generate_bass_pairs_unchanged _ "major" Hm).
Defined.

(** C1.  For the melody [[("E", 0.5)]] and
    the scale [major] the transposition yields the letter [C]
    ([indexOf(E) = 2], [(2 - 9) mod 7 = 0], [degrees[0] = 0]), and
    [generate_bass] emits [("E", 0.5)]: the letter is not replaced. *)
Theorem generate_bass_E_major_not_transposed :
  bass_note_of_letter (get_scale_degrees "major") "E" = Some "C" ∧
  transposed_bass_note (get_scale_degrees "major") (VTuple [VStr "E"])
    = Ok "C" ∧
  generate_bass [VTuple [VStr "E"; VFloat (1 # 2)]] "major"
    = Ok [VTuple [VStr "E"; VFloat (1 # 2)]].
Proof. repeat split. Qed.

(** C3.  For each of the four registered
    scales and the melody [[("C", 0.25)]], the degree value selected by the
    transposition is at least 7 ([degrees[(0 - 9) mod 7] = degrees[5]]), the
    direct indexing of the alphabet with it is out of range and the
    transposition branch raises [IndexError]; [generate_bass] nevertheless
    raises nothing and returns the melody, because the branch is not
    entered. *)
Theorem generate_bass_C_no_index_error :
  Forall (λ scale,
    (∃ d, get_scale_degrees scale !! 5%nat = Some d ∧ 7 ≤ d) ∧
    bass_note_of_letter (get_scale_degrees scale) "C" = None ∧
    transposed_bass_note (get_scale_degrees scale) (VTuple [VStr "C"])
      = Raise IndexError ∧
    generate_bass [VTuple [VStr "C"; VFloat (1 # 4)]] scale
      = Ok [VTuple [VStr "C"; VFloat (1 # 4)]])
  builtin_scales.
Proof.
  repeat constructor; try (eexists; split; [reflexivity | lia]).
Qed.

(** The transposition branch is entered only when the first component of
    the entry is itself a tuple; a bare letter cannot be unpacked. *)
Example generate_bass_nested_tuple :
  generate_bass [VTuple [VTuple [VStr "E"]; VFloat (1 # 2)]] "major"
  = Ok [VTuple [VStr "C"; VFloat (1 # 2)]].
Proof. reflexivity. Qed.

Example generate_bass_nested_tuple_out_of_range :
  generate_bass [VTuple [VTuple [VStr "C"]; VFloat (1 # 2)]] "major"
  = Raise IndexError.
Proof. reflexivity. Qed.

Example generate_bass_bare_letter :
  generate_bass [VStr "C"] "major" = Raise ValueError.
Proof. reflexivity. Qed.

End bass.

(** ** The random source and the melody engine *)

Section melody.
Import MusicScale ChordProgressionGenerator RetroGameMelodyGenerator.
Context `{RandomSource R}.

(** A draw from a non-empty sequence succeeds and returns one of its
    elements. *)
Lemma choice_nonempty {A} (seq : list A) (r : R) :
  seq ≠ [] →
  ∃ x r', choice seq r = (Ok x, r') ∧ x ∈ seq.
Proof.
  intros Hne. unfold choice.
  destruct seq as [| a seq']; [done |].
  set (seq := a :: seq') in *.
  pose proof (randbelow_lt (length seq) r) as Hlt.
  destruct (randbelow (length seq) r) as [i r'] eqn:Hrb. simpl in Hlt.
  destruct (lookup_lt_is_Some_2 seq i) as [x Hx].
  { apply Hlt. simpl. lia. }
  exists x, r'. split.
  - by rewrite (py_index_lookup _ _ _ Hx).
  - by eapply list_elem_of_lookup_2.
Qed.

Lemma choice_empty {A} (r : R) :
  choice (@nil A) r = (Raise IndexError, r).
Proof. reflexivity. Qed.

Lemma catalog_progression prog :
  prog ∈ chord_progressions → prog ≠ [] ∧ Forall known_symbol prog.
Proof.
  unfold chord_progressions. rewrite !elem_of_cons, elem_of_nil.
  intros [-> | [-> | [-> | [-> | [-> | []]]]]];
    (split; [done | repeat constructor; by eexists]).
Qed.

(** One iteration of the loop appends one well-formed pair and leaves the
    running degree in letter-index range. *)
Lemma melody_step_ok prog degs mel cur (r : R) :
  prog ≠ [] → Forall known_symbol prog → length degs = 7%nat →
  ∃ ev cur' r',
    melody_step prog degs (mel, cur) r = (Ok (mel ++ [ev], cur'), r') ∧
    melody_pair_event ev ∧ 0 ≤ cur' < 7.
Proof.
  intros Hne Hk Hlen. unfold melody_step, bind.
  destruct (choice_nonempty prog r Hne) as (sym & r1 & -> & Hsym).
  rewrite List.Forall_forall in Hk.
  destruct (Hk sym) as [cd Hcd]; [by apply list_elem_of_In |].
  unfold lift, py_getitem. rewrite Hcd.
  set (steps := if bool_decide (cd ∈ [0; 3; 4; 6]) then _ else _).
  assert (Hsteps : steps ≠ []) by (subst steps; by case_bool_decide).
  destruct (choice_nonempty steps r1 Hsteps) as (step & r2 & -> & _).
  unfold py_mod. rewrite Hlen. change (Z.of_nat 7 =? 0) with false.
  cbv iota.
  destruct (choice_nonempty note_durations r2) as (d & r3 & -> & Hd);
    [done |].
  assert (Hcur : 0 ≤ (cur + step) mod Z.of_nat 7 < 7)
    by (apply Z.mod_pos_bound; lia).
  destruct (py_index_in_range notes ((cur + step) mod Z.of_nat 7))
    as (l & -> & Hl); [exact Hcur |].
  eexists _, _, _. split; [reflexivity |]. split; [| exact Hcur].
  exists l, d. split; [done |]. split; [| done].
  by eapply list_elem_of_lookup_2.
Qed.

Lemma for_range_S {S} n (body : S → M R S) (st : S) (r : R) :
  for_range (Datatypes.S n) body st r =
  match body st r with
  | (Ok st', r') => for_range n body st' r'
  | (Raise e, r') => (Raise e, r')
  end.
Proof. reflexivity. Qed.

Lemma melody_loop_ok prog degs n : ∀ mel cur (r : R),
  prog ≠ [] → Forall known_symbol prog → length degs = 7%nat →
  ∃ evs cur' r',
    for_range n (melody_step prog degs) (mel, cur) r
      = (Ok (mel ++ evs, cur'), r') ∧
    length evs = n ∧ Forall melody_pair_event evs.
Proof.
  induction n as [| n IH]; intros mel cur r Hne Hk Hlen.
  - exists [], cur, r. by rewrite app_nil_r.
  - destruct (melody_step_ok prog degs mel cur r Hne Hk Hlen)
      as (ev & cur1 & r1 & Hstep & Hev & _).
    destruct (IH (mel ++ [ev]) cur1 r1 Hne Hk Hlen)
      as (evs & cur2 & r2 & Hloop & Hn & Hevs).
    exists (ev :: evs), cur2, r2. split; [| split].
    + rewrite for_range_S, Hstep, Hloop. by rewrite <- app_assoc.
    + simpl. by rewrite Hn.
    + by constructor.
Qed.

(** C5.  For a progression of the fixed catalog and a registered scale,
    [generate_melody] returns 64 events.  The first is the bare letter
    [NoteAlphabet[d mod 7]], where [d] is the degree value drawn first from
    the scale's degrees; each of the other 63 is a pair of a letter of the
    alphabet and a duration of the fixed duration set. *)
Theorem generate_melody_shape prog scale (r : R) :
  prog ∈ chord_progressions → scale ∈ builtin_scales →
  ∃ d r0 seed rest r',
    choice (get_scale_degrees scale) r = (Ok d, r0) ∧
    d ∈ get_scale_degrees scale ∧
    notes !! Z.to_nat (d mod 7) = Some seed ∧
    generate_melody prog scale r = (Ok (VStr seed :: rest), r') ∧
    length (VStr seed :: rest) = 64%nat ∧
    length rest = 63%nat ∧
    Forall melody_pair_event rest.
Proof.
  intros Hprog Hscale.
  destruct (catalog_progression prog Hprog) as [Hne Hk].
  destruct (get_scale_degrees_builtin scale Hscale) as [Hlen _].
  assert (Hdegs : get_scale_degrees scale ≠ [])
    by (intros E; rewrite E in Hlen; discriminate).
  destruct (choice_nonempty (get_scale_degrees scale) r Hdegs)
    as (d & r0 & Hd & Hin).
  assert (Hseed : 0 ≤ d mod 7 < 7) by (apply Z.mod_pos_bound; lia).
  destruct (py_index_in_range notes (d mod 7) Hseed) as (seed & Hidx & Hl).
  destruct (melody_loop_ok prog (get_scale_degrees scale)
              (MELODY_LENGTH - 1) [VStr seed] d r0 Hne Hk Hlen)
    as (rest & cur' & r' & Hloop & Hn & Hrest).
  exists d, r0, seed, rest, r'.
  split; [exact Hd |]. split; [exact Hin |]. split; [exact Hl |].
  split; [| split; [| split; [| exact Hrest]]].
  - unfold generate_melody, bind. rewrite Hd.
    unfold lift, py_mod. change (Z.of_nat (length notes)) with 7.
    change (7 =? 0) with false. cbv iota. rewrite Hidx.
    change ([] ++ [VStr seed]) with [VStr seed]. by rewrite Hloop.
  - simpl. by rewrite Hn.
  - by rewrite Hn.
Qed.

End melody.

Lemma generate_melody_shape_witness :
  ["I"; "IV"; "V"] ∈ ChordProgressionGenerator.chord_progressions ∧
  "minor" ∈ builtin_scales ∧
  ∃ d r0 seed rest r',
    choice (MusicScale.get_scale_degrees "minor") 42%N = (Ok d, r0) ∧
    d ∈ MusicScale.get_scale_degrees "minor" ∧
    MusicScale.notes !! Z.to_nat (d mod 7) = Some seed ∧
    RetroGameMelodyGenerator.generate_melody ["I"; "IV"; "V"] "minor" 42%N
      = (Ok (VStr seed :: rest), r') ∧
    length (VStr seed :: rest) = 64%nat ∧
    length rest = 63%nat ∧
    Forall melody_pair_event rest.
Proof.
  assert (Hp : ["I"; "IV"; "V"] ∈ ChordProgressionGenerator.chord_progressions)
    by compute_done.
  assert (Hs : "minor" ∈ builtin_scales) by compute_done.
  split; [exact Hp |]. split; [exact Hs |].
  exact (generate_melody_shape ["I"; "IV"; "V"] "minor" 42%N Hp Hs).
Defined.

(** ** The harmony engine *)

Section harmony.
Import MusicScale ChordProgressionGenerator RetroGameHarmonyGenerator.

Lemma known_symbol_cases s :
  known_symbol s → s ∈ ["I"; "ii"; "iii"; "IV"; "V"; "vi"; "vii"].
Proof.
  unfold known_symbol, chord_symbols_to_degrees. intros [d Hd].
  repeat (rewrite lookup_insert in Hd; case_decide;
          [subst s; compute_done |]).
  by rewrite lookup_empty in Hd.
Qed.

(** Over a registered scale every known chord symbol has seven harmonic
    notes. *)
Lemma get_harmonic_notes_length s scale :
  known_symbol s → scale ∈ builtin_scales →
  ∃ c, get_harmonic_notes s scale = Ok c ∧ length c = 7%nat.
Proof.
  intros Hs%known_symbol_cases Hscale. revert Hs Hscale.
  unfold builtin_scales. rewrite !elem_of_cons, !elem_of_nil.
  intros [-> | [-> | [-> | [-> | [-> | [-> | [-> | []]]]]]]]
         [-> | [-> | [-> | [-> | []]]]];
    (eexists; split; [vm_compute; reflexivity | reflexivity]).
Qed.

(** The pool is the concatenation of the harmonic notes of the symbols of
    the progression, seven per symbol. *)
Lemma extend_harmonic_notes_concat prog scale : ∀ acc,
  Forall known_symbol prog → scale ∈ builtin_scales →
  ∃ chunks,
    Forall2 (λ s c, get_harmonic_notes s scale = Ok c) prog chunks ∧
    extend_harmonic_notes acc prog scale = Ok (acc ++ concat chunks) ∧
    length (concat chunks) = (7 * length prog)%nat.
Proof.
  induction prog as [| s prog IH]; intros acc Hk Hscale.
  - exists []. simpl. by rewrite app_nil_r.
  - inversion_clear Hk as [| ? ? Hs Hk'].
    destruct (get_harmonic_notes_length s scale Hs Hscale) as (c & Hc & Hlen).
    destruct (IH (acc ++ c) Hk' Hscale) as (chunks & Hall & Hext & Hlens).
    exists (c :: chunks). split; [by constructor |]. split.
    + simpl. rewrite Hc. simpl. by rewrite Hext, <- app_assoc.
    + simpl. rewrite length_app, Hlen, Hlens. lia.
Qed.

(** On a well-formed melody entry the element expression of the
    comprehensions computes the event of the specification. *)
Lemma harmony_entry_event pool offset e :
  pool ≠ [] → 0 ≤ offset → melody_entry e →
  harmony_entry offset pool e = Ok (harmony_event pool offset e).
Proof.
  intros Hpool Hoff [[letter ->] | (letter & d & -> & Hin)]; [done |].
  unfold harmony_entry, harmony_event. simpl is_tuple. cbv iota.
  change (py_subscript (VTuple [VStr letter; d]) 0) with (Ok (VStr letter)).
  cbn [rbind]. unfold py_list_index.
  rewrite (index_from_indexOf letter notes 0 Hin). cbn [rbind].
  rewrite Z.add_0_l.
  assert (Hlen : 0 < Z.of_nat (length pool))
    by (destruct pool; [done | simpl; lia]).
  unfold py_mod. replace (Z.of_nat (length pool) =? 0) with false by lia.
  cbn [rbind].
  destruct (py_index_in_range pool
              ((indexOf letter notes + offset) mod Z.of_nat (length pool)))
    as (h & -> & ->); [by apply Z.mod_pos_bound |].
  reflexivity.
Qed.

Lemma harmony_event_duration pool offset e :
  ∃ n, harmony_event pool offset e = VTuple [n; VFloat (1 # 4)].
Proof.
  unfold harmony_event.
  destruct e as [s | q | [| [s | q | l] [| d [| ? ?]]]]; eauto.
Qed.

(** C6.  For a melody of bare letters and (letter, duration) pairs with
    letters of the alphabet, a non-empty progression of known chord symbols
    and a registered scale, [generate_harmony] returns the offset-2 pass
    over the whole melody followed by the offset-4 pass, where the pool is
    the concatenation of the harmonic notes of the progression's symbols;
    the output has twice the length of the melody and every output
    duration is [0.25]. *)
Theorem generate_harmony_two_passes melody prog scale :
  Forall melody_entry melody →
  prog ≠ [] → Forall known_symbol prog → scale ∈ builtin_scales →
  ∃ chunks pool out,
    Forall2 (λ s c, get_harmonic_notes s scale = Ok c) prog chunks ∧
    pool = concat chunks ∧
    length pool = (7 * length prog)%nat ∧
    generate_harmony melody prog scale = Ok out ∧
    out = harmony_pass pool 2 melody ++ harmony_pass pool 4 melody ∧
    length out = (2 * length melody)%nat ∧
    Forall (λ ev, ∃ n, ev = VTuple [n; VFloat (1 # 4)]) out.
Proof.
  intros Hmel Hne Hk Hscale.
  destruct (extend_harmonic_notes_concat prog scale [] Hk Hscale)
    as (chunks & Hall & Hext & Hlen).
  simpl in Hext.
  set (pool := concat chunks) in *.
  assert (Hpool : pool ≠ []).
  { intros E. rewrite E in Hlen. destruct prog; [done | simpl in Hlen; lia]. }
  exists chunks, pool, (harmony_pass pool 2 melody ++ harmony_pass pool 4 melody).
  split; [exact Hall |]. split; [reflexivity |]. split; [exact Hlen |].
  split; [| split; [reflexivity | split]].
  - unfold generate_harmony. rewrite Hext. cbn [rbind].
    rewrite (comprehension_map _ (harmony_event pool 2)).
    2:{ eapply List.Forall_impl; [| exact Hmel].
        intros e He. by apply harmony_entry_event. }
    cbn [rbind].
    rewrite (comprehension_map _ (harmony_event pool 4)).
    2:{ eapply List.Forall_impl; [| exact Hmel].
        intros e He. by apply harmony_entry_event. }
    reflexivity.
  - unfold harmony_pass. rewrite length_app, !length_fmap. lia.
  - apply Forall_app. unfold harmony_pass.
    split; apply Forall_fmap, Forall_forall; intros e _;
      apply harmony_event_duration.
Qed.

(** Outside these inputs the comprehension raises. *)
Example generate_harmony_foreign_letter :
  generate_harmony [VTuple [VStr "H"; VFloat (1 # 4)]] ["I"] "major"
  = Raise ValueError.
Proof. reflexivity. Qed.

Example generate_harmony_empty_progression :
  generate_harmony [VTuple [VStr "C"; VFloat (1 # 4)]] [] "major"
  = Raise ZeroDivisionError.
Proof. reflexivity. Qed.

Example generate_harmony_unknown_symbol :
  generate_harmony [VTuple [VStr "C"; VFloat (1 # 4)]] ["VII"] "major"
  = Raise KeyError.
Proof. reflexivity. Qed.

End harmony.

Lemma generate_harmony_two_passes_witness :
  Forall melody_entry [VStr "C"; VTuple [VStr "D"; VFloat (1 # 2)]] ∧
  ["I"; "IV"] ≠ [] ∧ Forall known_symbol ["I"; "IV"] ∧
  "major" ∈ builtin_scales ∧
  ∃ chunks pool out,
    Forall2 (λ s c, ChordProgressionGenerator.get_harmonic_notes s "major"
                    = Ok c) ["I"; "IV"] chunks ∧
    pool = concat chunks ∧
    length pool = (7 * length ["I"; "IV"])%nat ∧
    RetroGameHarmonyGenerator.generate_harmony
      [VStr "C"; VTuple [VStr "D"; VFloat (1 # 2)]] ["I"; "IV"] "major"
      = Ok out ∧
    out = harmony_pass pool 2 [VStr "C"; VTuple [VStr "D"; VFloat (1 # 2)]]
          ++ harmony_pass pool 4 [VStr "C"; VTuple [VStr "D"; VFloat (1 # 2)]] ∧
    length out
      = (2 * length [VStr "C"; VTuple [VStr "D"; VFloat (1 # 2)]])%nat ∧
    Forall (λ ev, ∃ n, ev = VTuple [n; VFloat (1 # 4)]) out.
Proof.
  assert (Hm : Forall melody_entry
                 [VStr "C"; VTuple [VStr "D"; VFloat (1 # 2)]]).
  { constructor; [left; by eexists |].
    constructor; [| constructor].
    right. eexists _, _. split; [reflexivity | compute_done]. }
  assert (Hne : ["I"; "IV"] ≠ []) by discriminate.
  assert (Hk : Forall known_symbol ["I"; "IV"])
    by (repeat constructor; by eexists).
  assert (Hs : "major" ∈ builtin_scales) by compute_done.
  split; [exact Hm |]. split; [exact Hne |]. split; [exact Hk |].
  split; [exact Hs |].
  exact (generate_harmony_two_passes _ _ _ Hm Hne Hk Hs).
Defined.

(** ** The orchestrator *)

Section orchestrator.
Import MusicScale ChordProgressionGenerator RetroGameMelodyGenerator.
Import RetroGameHarmonyGenerator RetroGameBassGenerator.
Import RetroGameMusicGenerator.
Context `{RandomSource R}.

(** The [try] block, step by step. *)
Lemma try_generate_steps scale (r : R) :
  try_generate scale r =
  match generate_chord_progression scale r with
  | (Raise e, r1) => (Raise e, r1)
  | (Ok prog, r1) =>
      match generate_melody prog scale r1 with
      | (Raise e, r2) => (Raise e, r2)
      | (Ok mel, r2) =>
          match generate_harmony (normalize mel) prog scale with
          | Raise e => (Raise e, r2)
          | Ok harmony =>
              match generate_bass (normalize mel) scale with
              | Raise e => (Raise e, r2)
              | Ok bass => (Ok (normalize mel, harmony, bass), r2)
              end
          end
      end
  end.
Proof.
  unfold try_generate, bind.
  destruct (generate_chord_progression scale r) as [[prog | e] r1]; [| done].
  destruct (generate_melody prog scale r1) as [[mel | e] r2]; [| done].
  unfold lift.
  destruct (generate_harmony (normalize mel) prog scale); [| done].
  by destruct (generate_bass (normalize mel) scale).
Qed.

Lemma generate_music_fails scale (r : R) :
  step_fails scale r → (generate_music scale r).1 = (None, None, None).
Proof.
  intros Hf. unfold generate_music. rewrite try_generate_steps.
  destruct Hf as [e r1 Hp | prog r1 e r2 Hp Hm | prog r1 mel r2 e Hp Hm Hh
                 | prog r1 mel r2 e Hp Hm Hb]; rewrite Hp; try rewrite Hm;
    try rewrite Hh; try rewrite Hb; try done.
  by destruct (generate_harmony (normalize mel) prog scale).
Qed.

Lemma generate_music_succeeds scale (r : R) melody harmony bass r' :
  steps_succeed scale r melody harmony bass r' →
  generate_music scale r = ((Some melody, Some harmony, Some bass), r').
Proof.
  intros [prog r1 mel Hp Hm -> Hh Hb].
  unfold generate_music. by rewrite try_generate_steps, Hp, Hm, Hh, Hb.
Qed.

Lemma steps_fail_or_succeed scale (r : R) :
  step_fails scale r ∨
  ∃ melody harmony bass r', steps_succeed scale r melody harmony bass r'.
Proof.
  destruct (generate_chord_progression scale r) as [[prog | e] r1] eqn:Hp;
    [| left; by eapply progression_fails].
  destruct (generate_melody prog scale r1) as [[mel | e] r2] eqn:Hm;
    [| left; by eapply melody_fails].
  destruct (generate_harmony (normalize mel) prog scale) as [h | e] eqn:Hh;
    [| left; by eapply harmony_fails].
  destruct (generate_bass (normalize mel) scale) as [b | e] eqn:Hb;
    [| left; by eapply bass_fails].
  right. exists (normalize mel), h, b, r2. by econstructor.
Qed.

(** C7.  When a step of the pipeline of [generate_music] raises, the call
    returns [(None, None, None)]: none of melody, harmony and bass is
    produced.  When no step raises, it returns the complete triple.  Every
    call is in one of the two cases. *)
Theorem generate_music_all_or_nothing scale (r : R) :
  (step_fails scale r →
     (generate_music scale r).1 = (None, None, None)) ∧
  (∀ melody harmony bass r',
     steps_succeed scale r melody harmony bass r' →
     generate_music scale r = ((Some melody, Some harmony, Some bass), r')) ∧
  (step_fails scale r ∨
   ∃ melody harmony bass r', steps_succeed scale r melody harmony bass r').
Proof.
  split; [apply generate_music_fails |].
  split; [apply generate_music_succeeds | apply steps_fail_or_succeed].
Qed.

(** C10.  For a scale name that is not registered, the degree sequence is
    empty, the first draw of the melody engine raises [IndexError], and
    [generate_music] returns [(None, None, None)]. *)
Theorem generate_music_unknown_scale scale (r : R) :
  scale ∉ builtin_scales →
  ∃ prog r1,
    generate_chord_progression scale r = (Ok prog, r1) ∧
    get_scale_degrees scale = [] ∧
    generate_melody prog scale r1 = (Raise IndexError, r1) ∧
    generate_music scale r = ((None, None, None), r1).
Proof.
  intros Hscale.
  destruct (choice_nonempty chord_progressions r) as (prog & r1 & Hp & _);
    [done |].
  pose proof (get_scale_degrees_other scale Hscale) as Hdegs.
  assert (Hm : generate_melody prog scale r1 = (Raise IndexError, r1)).
  { unfold generate_melody, bind. by rewrite Hdegs. }
  exists prog, r1. split; [exact Hp |]. split; [exact Hdegs |].
  split; [exact Hm |].
  unfold generate_music. rewrite try_generate_steps.
  unfold generate_chord_progression. by rewrite Hp, Hm.
Qed.

End orchestrator.

Lemma generate_music_all_or_nothing_witness :
  (step_fails "lydian" 42%N ∧
   (RetroGameMusicGenerator.generate_music "lydian" 42%N).1
     = (None, None, None)) ∧
  (∃ melody harmony bass r',
     steps_succeed "minor" 42%N melody harmony bass r' ∧
     RetroGameMusicGenerator.generate_music "minor" 42%N
       = ((Some melody, Some harmony, Some bass), r')).
Proof.
  split.
  - assert (Hf : step_fails "lydian" 42%N).
    { eapply melody_fails; vm_compute; reflexivity. }
    split; [exact Hf |].
    exact (proj1 (generate_music_all_or_nothing "lydian" 42%N) Hf).
  - eassert (Hs : steps_succeed "minor" 42%N _ _ _ _).
    { eapply all_steps_ok;
        [vm_compute; reflexivity | vm_compute; reflexivity | reflexivity
        | vm_compute; reflexivity | vm_compute; reflexivity]. }
    eexists _, _, _, _. split; [exact Hs |].
    exact (proj1 (proj2 (generate_music_all_or_nothing "minor" 42%N))
             _ _ _ _ Hs).
Defined.

Lemma generate_music_unknown_scale_witness :
  ("lydian" ∉ builtin_scales) ∧
  ∃ prog r1,
    ChordProgressionGenerator.generate_chord_progression "lydian" 42%N
      = (Ok prog, r1) ∧
    MusicScale.get_scale_degrees "lydian" = [] ∧
    RetroGameMelodyGenerator.generate_melody prog "lydian" r1
      = (Raise IndexError, r1) ∧
    RetroGameMusicGenerator.generate_music "lydian" 42%N
      = ((None, None, None), r1).
Proof.
  assert (Hout : "lydian" ∉ builtin_scales) by compute_done.
  split; [exact Hout |].
  exact (generate_music_unknown_scale "lydian" 42%N Hout).
Defined.

(** ** Determinism *)

Section determinism.
Import MusicScale ChordProgressionGenerator RetroGameMelodyGenerator.
Import RetroGameHarmonyGenerator RetroGameBassGenerator.
Import RetroGameMusicGenerator.
Context `{RandomSource R1} `{RandomSource R2}.
Variable sim : R1 → R2 → Prop.
Hypothesis sim_draws : same_draws sim.

Lemma agree_ret {A} (a : A) : agree sim (ret a) (ret a).
Proof. by intros r1 r2 Hs. Qed.

Lemma agree_lift {A} (x : result A) : agree sim (lift x) (lift x).
Proof. by intros r1 r2 Hs. Qed.

Lemma agree_bind {A B} (m1 : M R1 A) (m2 : M R2 A)
    (k1 : A → M R1 B) (k2 : A → M R2 B) :
  agree sim m1 m2 → (∀ a, agree sim (k1 a) (k2 a)) →
  agree sim (bind m1 k1) (bind m2 k2).
Proof.
  intros Hm Hk r1 r2 Hs. unfold bind.
  destruct (Hm r1 r2 Hs) as [Eres Hs'].
  destruct (m1 r1) as [[a1 | e1] r1'], (m2 r2) as [[a2 | e2] r2'];
    simplify_eq/=; [by apply Hk | by split].
Qed.

Lemma agree_choice {A} (seq : list A) : agree sim (choice seq) (choice seq).
Proof.
  intros r1 r2 Hs. unfold choice. destruct seq as [| a seq']; [done |].
  destruct (sim_draws (length (a :: seq')) r1 r2 Hs) as [Ei Hs'].
  destruct (randbelow (length (a :: seq')) r1) as [i1 r1'].
  destruct (randbelow (length (a :: seq')) r2) as [i2 r2'].
  simpl in Ei, Hs'. subst i2. by split.
Qed.

Lemma agree_for_range {S} n (body1 : S → M R1 S) (body2 : S → M R2 S) :
  (∀ st, agree sim (body1 st) (body2 st)) →
  ∀ st, agree sim (for_range n body1 st) (for_range n body2 st).
Proof.
  intros Hbody. induction n as [| n IH]; intros st; simpl.
  - apply agree_ret.
  - apply agree_bind; [apply Hbody | apply IH].
Qed.

Lemma agree_melody_step prog degs st :
  agree sim (melody_step prog degs st) (melody_step prog degs st).
Proof.
  unfold melody_step. destruct st as [melody current_degree].
  repeat (apply agree_bind;
          [first [apply agree_choice | apply agree_lift] | intros ?]).
  apply agree_ret.
Qed.

Lemma agree_generate_melody prog scale :
  agree sim (generate_melody prog scale) (generate_melody prog scale).
Proof.
  unfold generate_melody.
  apply agree_bind; [apply agree_choice | intros d].
  apply agree_bind; [apply agree_lift | intros i].
  apply agree_bind; [apply agree_lift | intros note].
  apply agree_bind; [| intros st; apply agree_ret].
  apply agree_for_range. intros st. apply agree_melody_step.
Qed.

Lemma agree_try_generate scale :
  agree sim (try_generate scale) (try_generate scale).
Proof.
  unfold try_generate, generate_chord_progression.
  apply agree_bind; [apply agree_choice | intros prog].
  apply agree_bind; [apply agree_generate_melody | intros melody].
  apply agree_bind; [apply agree_lift | intros harmony].
  apply agree_bind; [apply agree_lift | intros bass].
  apply agree_ret.
Qed.

(** C8.  Two runs of [generate_music] with the same scale name, started
    from random-source states that yield the same draws (in particular from
    identical states of the same source), return identical
    (melody, harmony, bass) triples, and leave the sources in states that
    again yield the same draws. *)
Theorem generate_music_deterministic scale (r1 : R1) (r2 : R2) :
  sim r1 r2 →
  (generate_music scale r1).1 = (generate_music scale r2).1 ∧
  sim (generate_music scale r1).2 (generate_music scale r2).2.
Proof.
  intros Hs. unfold generate_music.
  destruct (agree_try_generate scale r1 r2 Hs) as [Eres Hs'].
  destruct (try_generate scale r1) as [[[[m1 h1] b1] | e1] r1'],
           (try_generate scale r2) as [[[[m2 h2] b2] | e2] r2'];
    simplify_eq/=; by split.
Qed.

End determinism.

Lemma generate_music_deterministic_witness :
  same_draws (@eq N) ∧ 42%N = 42%N ∧
  (RetroGameMusicGenerator.generate_music "minor" 42%N).1
    = (RetroGameMusicGenerator.generate_music "minor" 42%N).1 ∧
  (RetroGameMusicGenerator.generate_music "minor" 42%N).2
    = (RetroGameMusicGenerator.generate_music "minor" 42%N).2.
Proof.
  assert (Hd : same_draws (@eq N)) by (intros n r1 r2 ->; by split).
  split; [exact Hd |]. split; [reflexivity |].
  exact (generate_music_deterministic eq Hd "minor" 42%N 42%N eq_refl).
Defined.

(** * Further properties of the engines *)

(** ** Chord progressions and harmonic notes *)

Section chord_model.
Import MusicScale ChordProgressionGenerator.

Lemma comprehension_total {A B} (f : A → result B) (P : B → Prop)
    (l : list A) :
  (∀ x, x ∈ l → ∃ y, f x = Ok y ∧ P y) →
  ∃ ys, comprehension f l = Ok ys ∧ length ys = length l ∧ Forall P ys.
Proof.
  induction l as [| x l IH]; intros Hf.
  - by exists [].
  - destruct (Hf x) as (y & Hy & HP); [by left |].
    destruct IH as (ys & Hys & Hlen & HPs).
    { intros x' Hx'. apply Hf. by right. }
    exists (y :: ys). simpl. rewrite Hy. cbn [rbind]. rewrite Hys.
    cbn [rbind]. split; [done |]. split; [by rewrite Hlen | by constructor].
Qed.

(** A letter index reduced modulo the length of the alphabet selects a
    letter of the alphabet. *)
Lemma notes_mod_index (d : Z) :
  ∃ letter,
    (i ←? py_mod d (Z.of_nat (length notes)); py_index notes i) = Ok letter ∧
    letter ∈ notes.
Proof.
  unfold py_mod. change (Z.of_nat (length notes)) with 7.
  change (7 =? 0) with false. cbv iota. cbn [rbind].
  destruct (py_index_in_range notes (d mod 7)) as (letter & Hidx & Hl).
  { change (Z.of_nat (length notes)) with 7. apply Z.mod_pos_bound. lia. }
  exists letter. split; [exact Hidx |]. by eapply list_elem_of_lookup_2.
Qed.

Lemma get_harmonic_notes_known s scale :
  known_symbol s →
  ∃ l, get_harmonic_notes s scale = Ok l ∧
       length l = length (get_scale_degrees scale) ∧
       Forall (λ letter, letter ∈ notes) l.
Proof.
  intros [cd Hcd]. unfold get_harmonic_notes, py_getitem. rewrite Hcd.
  cbn [rbind]. apply comprehension_total. intros d _.
  apply notes_mod_index.
Qed.

Lemma get_harmonic_notes_unknown s scale :
  ¬ known_symbol s → get_harmonic_notes s scale = Raise KeyError.
Proof.
  intros Hs. unfold get_harmonic_notes, py_getitem.
  destruct (chord_symbols_to_degrees !! s) as [cd |] eqn:Hcd; [| done].
  destruct Hs. by exists cd.
Qed.

(** X2.  [get_harmonic_notes] raises exactly when the chord symbol has no
    entry in the table, and then it raises [KeyError].  For a symbol of the
    table and any scale name it returns one letter of the alphabet per
    degree of the scale, so the empty list for a scale that is not
    registered. *)
Theorem get_harmonic_notes_behaviour s scale :
  (¬ known_symbol s → get_harmonic_notes s scale = Raise KeyError) ∧
  (known_symbol s →
     ∃ l, get_harmonic_notes s scale = Ok l ∧
          length l = length (get_scale_degrees scale) ∧
          Forall (λ letter, letter ∈ notes) l) ∧
  (known_symbol s → scale ∉ builtin_scales →
     get_harmonic_notes s scale = Ok []).
Proof.
  split; [apply get_harmonic_notes_unknown |].
  split; [apply get_harmonic_notes_known |].
  intros Hs Hscale.
  destruct (get_harmonic_notes_known s scale Hs) as (l & Hl & Hlen & _).
  rewrite (get_scale_degrees_other scale Hscale) in Hlen.
  destruct l; [done | discriminate].
Qed.

Context `{RandomSource R}.

(** X1.  [generate_chord_progression] never raises: it returns one of the
    five progressions of the catalog, which has 3, 4 or 6 symbols, all of
    them in the chord table; the scale argument has no influence on the
    result. *)
Theorem generate_chord_progression_catalog scale (r : R) :
  ∃ prog r',
    generate_chord_progression scale r = (Ok prog, r') ∧
    prog ∈ chord_progressions ∧
    length prog ∈ [3; 4; 6]%nat ∧
    Forall known_symbol prog ∧
    ∀ scale', generate_chord_progression scale' r = (Ok prog, r').
Proof.
  destruct (choice_nonempty chord_progressions r) as (prog & r' & Hp & Hin);
    [done |].
  exists prog, r'. split; [exact Hp |]. split; [exact Hin |].
  split; [| split; [by apply catalog_progression | intros; exact Hp]].
  revert Hin. unfold chord_progressions. rewrite !elem_of_cons, elem_of_nil.
  intros [-> | [-> | [-> | [-> | [-> | []]]]]]; compute_done.
Qed.

End chord_model.

Lemma get_harmonic_notes_behaviour_witness :
  ((¬ known_symbol "VII") ∧
   ChordProgressionGenerator.get_harmonic_notes "VII" "major"
     = Raise KeyError) ∧
  (known_symbol "V" ∧
   ∃ l, ChordProgressionGenerator.get_harmonic_notes "V" "dorian" = Ok l ∧
        length l = length (MusicScale.get_scale_degrees "dorian") ∧
        Forall (λ letter, letter ∈ MusicScale.notes) l) ∧
  (known_symbol "V" ∧ ("lydian" ∉ builtin_scales) ∧
   ChordProgressionGenerator.get_harmonic_notes "V" "lydian" = Ok []).
Proof.
  assert (Hu : ¬ known_symbol "VII") by (intros [d Hd]; discriminate).
  assert (Hk : known_symbol "V") by (by eexists).
  assert (Hout : "lydian" ∉ builtin_scales) by compute_done.
  split; [split; [exact Hu |] | split; [split; [exact Hk |] |]].
  - exact (proj1 (get_harmonic_notes_behaviour "VII" "major") Hu).
  - exact (proj1 (proj2 (get_harmonic_notes_behaviour "V" "dorian")) Hk).
  - split; [exact Hk |]. split; [exact Hout |].
    exact (proj2 (proj2 (get_harmonic_notes_behaviour "V" "lydian")) Hk Hout).
Defined.

(** ** The melody engine on degenerate progressions *)

Section melody_edges.
Import MusicScale ChordProgressionGenerator RetroGameMelodyGenerator.
Context `{RandomSource R}.

(** The seed note: the first draw and the letter it selects. *)
Lemma generate_melody_seed prog scale (r : R) :
  scale ∈ builtin_scales →
  ∃ d r0 seed,
    choice (get_scale_degrees scale) r = (Ok d, r0) ∧
    seed ∈ notes ∧
    generate_melody prog scale r =
      match for_range (MELODY_LENGTH - 1)
              (melody_step prog (get_scale_degrees scale))
              ([VStr seed], d) r0 with
      | (Ok st, r') => (Ok st.1, r')
      | (Raise e, r') => (Raise e, r')
      end.
Proof.
  intros Hscale.
  destruct (get_scale_degrees_builtin scale Hscale) as [Hlen _].
  assert (Hdegs : get_scale_degrees scale ≠ [])
    by (intros E; rewrite E in Hlen; discriminate).
  destruct (choice_nonempty (get_scale_degrees scale) r Hdegs)
    as (d & r0 & Hd & _).
  destruct (notes_mod_index d) as (seed & Hseed & Hin).
  exists d, r0, seed. split; [exact Hd |]. split; [exact Hin |].
  unfold generate_melody, bind. rewrite Hd. unfold lift.
  unfold rbind in Hseed.
  destruct (py_mod d (Z.of_nat (length notes))) as [i |]; [| done].
  rewrite Hseed. reflexivity.
Qed.

Lemma generate_melody_events prog scale (r : R) :
  prog ≠ [] → Forall known_symbol prog → scale ∈ builtin_scales →
  ∃ seed rest r',
    generate_melody prog scale r = (Ok (VStr seed :: rest), r') ∧
    seed ∈ notes ∧ length rest = 63%nat ∧ Forall melody_pair_event rest.
Proof.
  intros Hne Hk Hscale.
  destruct (generate_melody_seed prog scale r Hscale)
    as (d & r0 & seed & _ & Hin & ->).
  destruct (get_scale_degrees_builtin scale Hscale) as [Hlen _].
  destruct (melody_loop_ok prog (get_scale_degrees scale)
              (MELODY_LENGTH - 1) [VStr seed] d r0 Hne Hk Hlen)
    as (rest & cur' & r' & -> & Hn & Hrest).
  by exists seed, rest, r'.
Qed.

(** X3.  Over a registered scale, [generate_melody] raises [IndexError]
    when the progression is empty, and [KeyError] when the progression is
    not empty and none of its symbols is in the chord table: in both cases
    the first iteration of the loop fails, after the seed note was drawn. *)
Theorem generate_melody_degenerate_progression prog scale (r : R) :
  scale ∈ builtin_scales →
  (prog = [] → ∃ r', generate_melody prog scale r = (Raise IndexError, r')) ∧
  (prog ≠ [] → Forall (λ s, ¬ known_symbol s) prog →
     ∃ r', generate_melody prog scale r = (Raise KeyError, r')).
Proof.
  intros Hscale.
  destruct (generate_melody_seed prog scale r Hscale)
    as (d & r0 & seed & _ & _ & ->).
  change (MELODY_LENGTH - 1)%nat with (S 62). rewrite for_range_S.
  split.
  - intros ->. exists r0. reflexivity.
  - intros Hne Hall. unfold melody_step, bind.
    destruct (choice_nonempty prog r0 Hne) as (sym & r1 & -> & Hsym).
    rewrite List.Forall_forall in Hall.
    assert (Hu : ¬ known_symbol sym) by (apply Hall; by apply list_elem_of_In).
    unfold lift, py_getitem.
    destruct (chord_symbols_to_degrees !! sym) as [cd |] eqn:Hcd.
    + destruct Hu. by exists cd.
    + by exists r1.
Qed.

End melody_edges.

Lemma generate_melody_degenerate_progression_witness :
  "major" ∈ builtin_scales ∧
  ((@nil string = [] ∧
    ∃ r', RetroGameMelodyGenerator.generate_melody [] "major" 7%N
          = (Raise IndexError, r')) ∧
   (["VII"; "bII"] ≠ [] ∧ Forall (λ s, ¬ known_symbol s) ["VII"; "bII"] ∧
    ∃ r', RetroGameMelodyGenerator.generate_melody ["VII"; "bII"] "major" 7%N
          = (Raise KeyError, r'))).
Proof.
  assert (Hs : "major" ∈ builtin_scales) by compute_done.
  assert (Hne : ["VII"; "bII"] ≠ []) by discriminate.
  assert (Hu : Forall (λ s, ¬ known_symbol s) ["VII"; "bII"])
    by (repeat constructor; intros [d Hd]; discriminate).
  split; [exact Hs |]. split.
  - split; [reflexivity |].
    exact (proj1 (generate_melody_degenerate_progression [] "major" 7%N Hs)
             eq_refl).
  - split; [exact Hne |]. split; [exact Hu |].
    exact (proj2 (generate_melody_degenerate_progression
                    ["VII"; "bII"] "major" 7%N Hs) Hne Hu).
Defined.

(** ** The harmony engine: letters and exceptions *)

Section harmony_edges.
Import MusicScale ChordProgressionGenerator RetroGameHarmonyGenerator.

(** The pool is built whenever every symbol is in the table; its letters
    are letters of the alphabet, seven per symbol over a registered scale
    and none over any other scale. *)
Lemma extend_harmonic_notes_known prog scale : ∀ acc,
  Forall known_symbol prog →
  ∃ pool,
    extend_harmonic_notes acc prog scale = Ok (acc ++ pool) ∧
    Forall (λ letter, letter ∈ notes) pool ∧
    length pool = (length (get_scale_degrees scale) * length prog)%nat.
Proof.
  induction prog as [| s prog IH]; intros acc Hk.
  - exists []. simpl. rewrite app_nil_r. split; [done |]. split; [done | lia].
  - inversion_clear Hk as [| ? ? Hs Hk'].
    destruct (get_harmonic_notes_known s scale Hs) as (c & Hc & Hlen & Hin).
    destruct (IH (acc ++ c) Hk') as (pool & Hext & Hpool & Hlens).
    exists (c ++ pool). simpl. rewrite Hc. cbn [rbind].
    rewrite Hext, <- app_assoc. split; [done |]. split.
    + by apply Forall_app.
    + rewrite length_app, Hlen, Hlens. lia.
Qed.

Lemma extend_harmonic_notes_unknown prog scale : ∀ acc,
  Exists (λ s, ¬ known_symbol s) prog →
  extend_harmonic_notes acc prog scale = Raise KeyError.
Proof.
  induction prog as [| s prog IH]; intros acc Hex; [by inversion Hex |].
  simpl.
  destruct (chord_symbols_to_degrees !! s) as [cd |] eqn:Hcd.
  - destruct (get_harmonic_notes_known s scale) as (c & -> & _);
      [by exists cd |].
    cbn [rbind]. apply IH.
    inversion_clear Hex as [? ? Hs | ? ? Hex']; [| done].
    destruct Hs. by exists cd.
  - rewrite get_harmonic_notes_unknown; [done |].
    intros [cd Hcd']. congruence.
Qed.

(** X8.  When some symbol of the progression is not in the chord table,
    [generate_harmony] raises [KeyError], whatever the melody (even an
    empty one) and the scale. *)
Theorem generate_harmony_key_error melody prog scale :
  Exists (λ s, ¬ known_symbol s) prog →
  generate_harmony melody prog scale = Raise KeyError.
Proof.
  intros Hex. unfold generate_harmony.
  by rewrite (extend_harmonic_notes_unknown prog scale [] Hex).
Qed.

(** X9.  When no melody entry is a tuple, the pool is never consulted:
    for any progression of known symbols (the empty one included) and any
    scale name (registered or not) [generate_harmony] returns every entry
    paired with the duration [0.25], twice over. *)
Theorem generate_harmony_bare_entries melody prog scale :
  Forall (λ e, is_tuple e = false) melody →
  Forall known_symbol prog →
  generate_harmony melody prog scale =
    Ok (((λ e, VTuple [e; VFloat (1 # 4)]) <$> melody) ++
        ((λ e, VTuple [e; VFloat (1 # 4)]) <$> melody)).
Proof.
  intros Hmel Hk. unfold generate_harmony.
  destruct (extend_harmonic_notes_known prog scale [] Hk)
    as (pool & -> & _). cbn [rbind].
  assert (Hpass : ∀ offset,
            comprehension (harmony_entry offset ([] ++ pool)) melody
            = Ok ((λ e, VTuple [e; VFloat (1 # 4)]) <$> melody)).
  { intros offset. apply comprehension_map.
    eapply List.Forall_impl; [| exact Hmel].
    intros e He. unfold harmony_entry. by rewrite He. }
  by rewrite !Hpass.
Qed.

Lemma comprehension_raise {A B} (f : A → result B) (g : A → B) e
    (l : list A) :
  Forall (λ x, f x = Ok (g x) ∨ f x = Raise e) l →
  Exists (λ x, f x = Raise e) l →
  comprehension f l = Raise e.
Proof.
  induction 1 as [| x l Hx _ IH]; intros Hex; [by inversion Hex |].
  simpl. destruct Hx as [Hx | Hx]; rewrite Hx; cbn [rbind]; [| done].
  rewrite IH; [done |].
  inversion_clear Hex as [? ? Hx' | ? ? Hex']; [congruence | done].
Qed.

Lemma harmony_entry_empty_pool offset e :
  melody_entry e →
  harmony_entry offset [] e =
    if is_tuple e then Raise ZeroDivisionError
    else Ok (VTuple [e; VFloat (1 # 4)]).
Proof.
  intros [[letter ->] | (letter & d & -> & Hin)]; [done |].
  unfold harmony_entry. simpl is_tuple. cbv iota.
  change (py_subscript (VTuple [VStr letter; d]) 0) with (Ok (VStr letter)).
  cbn [rbind]. unfold py_list_index.
  by rewrite (index_from_indexOf letter notes 0 Hin).
Qed.

(** X10.  When the pool is empty (the progression is empty, or the scale
    is not registered) and the melody, made of bare letters and pairs with
    a letter of the alphabet, holds at least one pair, [generate_harmony]
    raises [ZeroDivisionError]. *)
Theorem generate_harmony_empty_pool melody prog scale :
  Forall melody_entry melody → Exists (λ e, is_tuple e = true) melody →
  Forall known_symbol prog →
  prog = [] ∨ scale ∉ builtin_scales →
  generate_harmony melody prog scale = Raise ZeroDivisionError.
Proof.
  intros Hmel Hex Hk Hempty. unfold generate_harmony.
  destruct (extend_harmonic_notes_known prog scale [] Hk)
    as (pool & -> & _ & Hlen).
  assert (pool = []) as ->.
  { apply length_zero_iff_nil. rewrite Hlen.
    destruct Hempty as [-> | Hscale]; [simpl; lia |].
    by rewrite (get_scale_degrees_other scale Hscale). }
  cbn [rbind app].
  rewrite (comprehension_raise _ (λ e, VTuple [e; VFloat (1 # 4)])
             ZeroDivisionError); [done | |].
  - eapply List.Forall_impl; [| exact Hmel]. intros e He.
    rewrite (harmony_entry_empty_pool 2 e He). destruct (is_tuple e); auto.
  - rewrite List.Exists_exists in Hex. destruct Hex as (e & Hin & He).
    apply List.Exists_exists. exists e. split; [exact Hin |].
    rewrite List.Forall_forall in Hmel.
    by rewrite (harmony_entry_empty_pool 2 e (Hmel e Hin)), He.
Qed.

(** The letters of the harmony of a well-formed melody. *)
Lemma harmony_event_letter pool offset e :
  pool ≠ [] → Forall (λ letter, letter ∈ notes) pool →
  (∃ letter d, e = VTuple [VStr letter; d]) →
  ∃ h, harmony_event pool offset e = VTuple [VStr h; VFloat (1 # 4)] ∧
       h ∈ notes.
Proof.
  intros Hpool Hin (letter & d & ->). unfold harmony_event.
  assert (Hlen : 0 < Z.of_nat (length pool))
    by (destruct pool; [done | simpl; lia]).
  destruct (lookup_lt_is_Some_2 pool
              (Z.to_nat ((indexOf letter notes + offset)
                         mod Z.of_nat (length pool)))) as [h Hh].
  { pose proof (Z.mod_pos_bound (indexOf letter notes + offset)
                  (Z.of_nat (length pool)) Hlen). lia. }
  exists h. rewrite Hh. split; [done |].
  rewrite List.Forall_forall in Hin. apply Hin.
  apply list_elem_of_In. by eapply list_elem_of_lookup_2.
Qed.

Lemma generate_harmony_ok melody prog scale :
  Forall melody_entry melody →
  prog ≠ [] → Forall known_symbol prog → scale ∈ builtin_scales →
  ∃ pool,
    pool ≠ [] ∧ Forall (λ letter, letter ∈ notes) pool ∧
    generate_harmony melody prog scale
      = Ok (harmony_pass pool 2 melody ++ harmony_pass pool 4 melody).
Proof.
  intros Hmel Hne Hk Hscale.
  destruct (extend_harmonic_notes_known prog scale [] Hk)
    as (pool & Hext & Hin & Hlen).
  destruct (get_scale_degrees_builtin scale Hscale) as [H7 _].
  assert (Hpool : pool ≠ []).
  { intros ->. rewrite H7 in Hlen. destruct prog; [done | simpl in Hlen; lia]. }
  exists pool. split; [exact Hpool |]. split; [exact Hin |].
  unfold generate_harmony. rewrite Hext. cbn [rbind app].
  rewrite (comprehension_map _ (harmony_event pool 2)).
  2:{ eapply List.Forall_impl; [| exact Hmel].
      intros e He. by apply harmony_entry_event. }
  cbn [rbind].
  rewrite (comprehension_map _ (harmony_event pool 4)).
  2:{ eapply List.Forall_impl; [| exact Hmel].
      intros e He. by apply harmony_entry_event. }
  reflexivity.
Qed.

(** A harmony event: a letter of the alphabet with the duration [0.25]. *)
Lemma generate_harmony_events melody prog scale :
  Forall (λ e, ∃ letter d, e = VTuple [VStr letter; d] ∧ letter ∈ notes)
    melody →
  prog ≠ [] → Forall known_symbol prog → scale ∈ builtin_scales →
  ∃ harmony,
    generate_harmony melody prog scale = Ok harmony ∧
    length harmony = (2 * length melody)%nat ∧
    Forall (λ ev, ∃ h, ev = VTuple [VStr h; VFloat (1 # 4)] ∧ h ∈ notes)
      harmony.
Proof.
  intros Hmel Hne Hk Hscale.
  assert (Hmel' : Forall melody_entry melody).
  { eapply List.Forall_impl; [| exact Hmel].
    intros e (letter & d & -> & Hin). right. by exists letter, d. }
  destruct (generate_harmony_ok melody prog scale Hmel' Hne Hk Hscale)
    as (pool & Hpool & Hin & ->).
  eexists. split; [reflexivity |]. split.
  - unfold harmony_pass. rewrite length_app, !length_fmap. lia.
  - apply Forall_app. unfold harmony_pass.
    split; apply Forall_fmap; (eapply List.Forall_impl; [| exact Hmel]);
      intros e (letter & d & -> & _);
      apply harmony_event_letter; eauto.
Qed.

(** X7.  For a melody of (letter, duration) pairs with letters of the
    alphabet, a non-empty progression of known symbols and a registered
    scale, every harmony event is a letter of the alphabet paired with the
    duration [0.25]: the harmony never leaves the seven-letter alphabet. *)
Theorem generate_harmony_alphabet melody prog scale :
  Forall (λ e, ∃ letter d, e = VTuple [VStr letter; d] ∧ letter ∈ notes)
    melody →
  prog ≠ [] → Forall known_symbol prog → scale ∈ builtin_scales →
  ∃ harmony,
    generate_harmony melody prog scale = Ok harmony ∧
    Forall (λ ev, ∃ h, ev = VTuple [VStr h; VFloat (1 # 4)] ∧ h ∈ notes)
      harmony.
Proof.
  intros Hmel Hne Hk Hscale.
  destruct (generate_harmony_events melody prog scale Hmel Hne Hk Hscale)
    as (harmony & Hh & _ & Hev).
  by exists harmony.
Qed.

End harmony_edges.

Lemma generate_harmony_key_error_witness :
  Exists (λ s, ¬ known_symbol s) ["I"; "VII"] ∧
  RetroGameHarmonyGenerator.generate_harmony [] ["I"; "VII"] "major"
    = Raise KeyError.
Proof.
  assert (Hex : Exists (λ s, ¬ known_symbol s) ["I"; "VII"]).
  { right. left. intros [d Hd]. discriminate. }
  split; [exact Hex |].
  exact (generate_harmony_key_error [] ["I"; "VII"] "major" Hex).
Defined.

Lemma generate_harmony_bare_entries_witness :
  Forall (λ e, is_tuple e = false) [VStr "C"; VStr "E"] ∧
  Forall known_symbol [] ∧
  RetroGameHarmonyGenerator.generate_harmony [VStr "C"; VStr "E"] [] "lydian"
    = Ok (((λ e, VTuple [e; VFloat (1 # 4)]) <$> [VStr "C"; VStr "E"]) ++
          ((λ e, VTuple [e; VFloat (1 # 4)]) <$> [VStr "C"; VStr "E"])).
Proof.
  assert (Hm : Forall (λ e, is_tuple e = false) [VStr "C"; VStr "E"])
    by (repeat constructor).
  assert (Hk : Forall known_symbol []) by constructor.
  split; [exact Hm |]. split; [exact Hk |].
  exact (generate_harmony_bare_entries _ [] "lydian" Hm Hk).
Defined.

Lemma generate_harmony_empty_pool_witness :
  Forall melody_entry [VStr "C"; VTuple [VStr "D"; VFloat (1 # 2)]] ∧
  Exists (λ e, is_tuple e = true)
    [VStr "C"; VTuple [VStr "D"; VFloat (1 # 2)]] ∧
  Forall known_symbol ["I"] ∧
  (["I"] = [] ∨ "lydian" ∉ builtin_scales) ∧
  RetroGameHarmonyGenerator.generate_harmony
    [VStr "C"; VTuple [VStr "D"; VFloat (1 # 2)]] ["I"] "lydian"
    = Raise ZeroDivisionError.
Proof.
  assert (Hm : Forall melody_entry
                 [VStr "C"; VTuple [VStr "D"; VFloat (1 # 2)]]).
  { constructor; [left; by eexists |].
    constructor; [| constructor].
    right. eexists _, _. split; [reflexivity | compute_done]. }
  assert (Hex : Exists (λ e, is_tuple e = true)
                  [VStr "C"; VTuple [VStr "D"; VFloat (1 # 2)]])
    by (right; left; reflexivity).
  assert (Hk : Forall known_symbol ["I"]) by (repeat constructor; by eexists).
  assert (He : ["I"] = [] ∨ "lydian" ∉ builtin_scales)
    by (right; compute_done).
  split; [exact Hm |]. split; [exact Hex |]. split; [exact Hk |].
  split; [exact He |].
  exact (generate_harmony_empty_pool _ _ _ Hm Hex Hk He).
Defined.

Lemma generate_harmony_alphabet_witness :
  Forall (λ e, ∃ letter d, e = VTuple [VStr letter; d] ∧
                           letter ∈ MusicScale.notes)
    [VTuple [VStr "D"; VFloat (1 # 2)]] ∧
  ["I"; "IV"] ≠ [] ∧ Forall known_symbol ["I"; "IV"] ∧
  "major" ∈ builtin_scales ∧
  ∃ harmony,
    RetroGameHarmonyGenerator.generate_harmony
      [VTuple [VStr "D"; VFloat (1 # 2)]] ["I"; "IV"] "major" = Ok harmony ∧
    Forall (λ ev, ∃ h, ev = VTuple [VStr h; VFloat (1 # 4)] ∧
                       h ∈ MusicScale.notes) harmony.
Proof.
  assert (Hm : Forall (λ e, ∃ letter d, e = VTuple [VStr letter; d] ∧
                                        letter ∈ MusicScale.notes)
                 [VTuple [VStr "D"; VFloat (1 # 2)]]).
  { constructor; [| constructor].
    eexists _, _. split; [reflexivity | compute_done]. }
  assert (Hne : ["I"; "IV"] ≠ []) by discriminate.
  assert (Hk : Forall known_symbol ["I"; "IV"])
    by (repeat constructor; by eexists).
  assert (Hs : "major" ∈ builtin_scales) by compute_done.
  split; [exact Hm |]. split; [exact Hne |]. split; [exact Hk |].
  split; [exact Hs |].
  exact (generate_harmony_alphabet _ _ _ Hm Hne Hk Hs).
Defined.

(** ** The bass engine on arbitrary melodies *)

Section bass_edges.
Import MusicScale RetroGameBassGenerator.

Lemma comprehension_Forall2 {A B} (f : A → result B) (l : list A) ys :
  comprehension f l = Ok ys → Forall2 (λ x y, f x = Ok y) l ys.
Proof.
  revert ys. induction l as [| x l IH]; intros ys Hys; simpl in Hys.
  - injection Hys as <-. constructor.
  - destruct (f x) as [y |] eqn:Hy; [| discriminate]. cbn [rbind] in Hys.
    destruct (comprehension f l) as [ys' |]; [| discriminate].
    cbn [rbind] in Hys. injection Hys as <-. constructor; [done | by apply IH].
Qed.

Lemma comprehension_first_raise {A B} (f : A → result B) e x (l : list A) :
  f x = Raise e → comprehension f (x :: l) = Raise e.
Proof. intros Hx. simpl. by rewrite Hx. Qed.

Lemma bass_entry_duration scale_degrees entry b :
  bass_entry scale_degrees entry = Ok b →
  ∃ note dur bass_note,
    unpack2 entry = Ok (note, dur) ∧ b = VTuple [bass_note; dur].
Proof.
  unfold bass_entry. destruct (unpack2 entry) as [[note dur] |]; [| done].
  cbn [rbind]. destruct (is_tuple note).
  - destruct (transposed_bass_note scale_degrees note) as [n |]; [| done].
    cbn [rbind]. intros [= <-]. by eexists _, _, _.
  - intros [= <-]. by eexists _, _, _.
Qed.

(** X11.  Whenever [generate_bass] returns, for any melody and any scale
    name, the bass has one event per melody entry and each bass event is a
    pair whose second component is the duration slot unpacked from the
    corresponding melody entry. *)
Theorem generate_bass_keeps_durations melody scale bass :
  generate_bass melody scale = Ok bass →
  length bass = length melody ∧
  Forall2 (λ entry b, ∃ note dur bass_note,
             unpack2 entry = Ok (note, dur) ∧ b = VTuple [bass_note; dur])
    melody bass.
Proof.
  intros Hb%comprehension_Forall2. split.
  - symmetry. by eapply Forall2_length.
  - eapply List.Forall2_impl; [| exact Hb].
    intros entry b. apply bass_entry_duration.
Qed.

Lemma unpack2_letter letter :
  letter ∈ notes → unpack2 (VStr letter) = Raise ValueError.
Proof.
  unfold notes. rewrite !elem_of_cons, elem_of_nil.
  intros [-> | [-> | [-> | [-> | [-> | [-> | [-> | []]]]]]]]; reflexivity.
Qed.

End bass_edges.

Lemma generate_bass_keeps_durations_witness :
  RetroGameBassGenerator.generate_bass
    [VTuple [VStr "E"; VFloat (3 # 2)]; VStr "AB";
     VTuple [VTuple [VStr "E"]; VFloat (1 # 2)]] "minor"
  = Ok [VTuple [VStr "E"; VFloat (3 # 2)]; VTuple [VStr "A"; VStr "B"];
        VTuple [VStr "C"; VFloat (1 # 2)]] ∧
  length [VTuple [VStr "E"; VFloat (3 # 2)]; VTuple [VStr "A"; VStr "B"];
          VTuple [VStr "C"; VFloat (1 # 2)]]
  = length [VTuple [VStr "E"; VFloat (3 # 2)]; VStr "AB";
            VTuple [VTuple [VStr "E"]; VFloat (1 # 2)]] ∧
  Forall2 (λ entry b, ∃ note dur bass_note,
             unpack2 entry = Ok (note, dur) ∧ b = VTuple [bass_note; dur])
    [VTuple [VStr "E"; VFloat (3 # 2)]; VStr "AB";
     VTuple [VTuple [VStr "E"]; VFloat (1 # 2)]]
    [VTuple [VStr "E"; VFloat (3 # 2)]; VTuple [VStr "A"; VStr "B"];
     VTuple [VStr "C"; VFloat (1 # 2)]].
Proof.
  assert (Hb : RetroGameBassGenerator.generate_bass
    [VTuple [VStr "E"; VFloat (3 # 2)]; VStr "AB";
     VTuple [VTuple [VStr "E"]; VFloat (1 # 2)]] "minor"
  = Ok [VTuple [VStr "E"; VFloat (3 # 2)]; VTuple [VStr "A"; VStr "B"];
        VTuple [VStr "C"; VFloat (1 # 2)]]) by reflexivity.
  split; [exact Hb |].
  exact (generate_bass_keeps_durations _ _ _ Hb).
Defined.

(** ** Normalization and the whole pipeline *)

Section pipeline.
Import MusicScale ChordProgressionGenerator RetroGameMelodyGenerator.
Import RetroGameHarmonyGenerator RetroGameBassGenerator.
Import RetroGameMusicGenerator.

Lemma normalize_no_str melody :
  Forall (λ e, is_str e = false) melody → normalize melody = melody.
Proof.
  induction 1 as [| e l He _ IH]; [done |].
  unfold normalize in *. rewrite fmap_cons, He. by f_equal.
Qed.

Lemma normalize_result_no_str melody :
  Forall (λ e, is_str e = false) (normalize melody).
Proof.
  unfold normalize. apply Forall_fmap, Forall_forall. intros e _.
  simpl. by destruct e.
Qed.

(** X4.  [normalize] keeps the number of entries, leaves no bare string
    behind, does not touch an entry that is not a bare string, and is
    idempotent. *)
Theorem normalize_idempotent melody :
  length (normalize melody) = length melody ∧
  Forall (λ e, is_str e = false) (normalize melody) ∧
  Forall2 (λ e e', if is_str e then e' = VTuple [e; VFloat (1 # 4)]
                   else e' = e) melody (normalize melody) ∧
  normalize (normalize melody) = normalize melody.
Proof.
  split; [apply length_fmap |].
  split; [apply normalize_result_no_str |].
  split; [| apply normalize_no_str, normalize_result_no_str].
  unfold normalize. induction melody as [| e l IH]; [constructor |].
  rewrite fmap_cons. constructor; [by destruct e | exact IH].
Qed.

Lemma melody_pair_event_pair e :
  melody_pair_event e →
  is_str e = false ∧ letter_duration_pair e ∧ melody_entry e ∧
  ∃ letter d, e = VTuple [VStr letter; d] ∧ letter ∈ notes.
Proof.
  intros (letter & d & -> & Hin & _). split; [done |].
  split; [by eexists _, _ |].
  split; [right |]; by eexists _, _.
Qed.

(** The melody as the engine returns it and as the orchestrator
    normalizes it. *)
Lemma normalize_raw_melody seed rest :
  seed ∈ notes → Forall melody_pair_event rest →
  normalize (VStr seed :: rest) = VTuple [VStr seed; VFloat (1 # 4)] :: rest ∧
  Forall melody_pair_event (VTuple [VStr seed; VFloat (1 # 4)] :: rest).
Proof.
  intros Hseed Hrest. split.
  - unfold normalize. rewrite fmap_cons. simpl is_str. cbv iota. f_equal.
    apply normalize_no_str. eapply List.Forall_impl; [| exact Hrest].
    intros e He. by apply melody_pair_event_pair.
  - constructor; [| exact Hrest].
    exists seed, (1 # 4)%Q. split; [done |]. split; [done | by left].
Qed.

Context `{RandomSource R}.

(** X12.  The melody as [generate_melody] returns it starts with a bare
    letter: [generate_harmony] accepts it, but [generate_bass] raises
    [ValueError] on it (a one-letter string cannot be unpacked into note
    and duration); after [normalize], [generate_bass] returns the
    normalized melody. *)
Theorem raw_melody_needs_normalization prog scale (r : R) :
  prog ∈ chord_progressions → scale ∈ builtin_scales →
  ∃ melody r',
    generate_melody prog scale r = (Ok melody, r') ∧
    generate_bass melody scale = Raise ValueError ∧
    (∃ harmony, generate_harmony melody prog scale = Ok harmony) ∧
    generate_bass (normalize melody) scale = Ok (normalize melody).
Proof.
  intros Hprog Hscale.
  destruct (catalog_progression prog Hprog) as [Hne Hk].
  destruct (generate_melody_events prog scale r Hne Hk Hscale)
    as (seed & rest & r' & Hm & Hseed & _ & Hrest).
  exists (VStr seed :: rest), r'. split; [exact Hm |].
  split; [| split].
  - unfold generate_bass. apply comprehension_first_raise.
    unfold bass_entry. by rewrite (unpack2_letter seed Hseed).
  - destruct (generate_harmony_ok (VStr seed :: rest) prog scale)
      as (pool & _ & _ & Hh); try done; [| by eexists].
    constructor; [left; by eexists |].
    eapply List.Forall_impl; [| exact Hrest].
    intros e He. by apply melody_pair_event_pair.
  - destruct (normalize_raw_melody seed rest Hseed Hrest) as [-> Hall].
    unfold generate_bass. apply comprehension_id.
    eapply List.Forall_impl; [| exact Hall].
    intros e He. by apply bass_entry_pair, melody_pair_event_pair.
Qed.

(** The run of [generate_music] over a registered scale. *)
Lemma generate_music_registered scale (r : R) :
  scale ∈ builtin_scales →
  ∃ melody harmony r',
    generate_music scale r = ((Some melody, Some harmony, Some melody), r') ∧
    length melody = 64%nat ∧ Forall melody_pair_event melody ∧
    (∃ letter, head melody = Some (VTuple [VStr letter; VFloat (1 # 4)])) ∧
    length harmony = 128%nat ∧
    Forall (λ ev, ∃ h, ev = VTuple [VStr h; VFloat (1 # 4)] ∧ h ∈ notes)
      harmony.
Proof.
  intros Hscale.
  destruct (choice_nonempty chord_progressions r) as (prog & r1 & Hp & Hin);
    [done |].
  destruct (catalog_progression prog Hin) as [Hne Hk].
  destruct (generate_melody_events prog scale r1 Hne Hk Hscale)
    as (seed & rest & r' & Hm & Hseed & Hlen & Hrest).
  destruct (normalize_raw_melody seed rest Hseed Hrest) as [Hnorm Hall].
  set (melody := VTuple [VStr seed; VFloat (1 # 4)] :: rest) in *.
  destruct (generate_harmony_events melody prog scale) as (harmony & Hh & Hhl & Hhe);
    try done.
  { eapply List.Forall_impl; [| exact Hall].
    intros e He. by apply melody_pair_event_pair. }
  assert (Hb : generate_bass melody scale = Ok melody).
  { unfold generate_bass. apply comprehension_id.
    eapply List.Forall_impl; [| exact Hall].
    intros e He. by apply bass_entry_pair, melody_pair_event_pair. }
  assert (Hlm : length melody = 64%nat) by (subst melody; simpl; by rewrite Hlen).
  exists melody, harmony, r'. split; [| split; [exact Hlm |]].
  - unfold generate_music. rewrite try_generate_steps.
    unfold generate_chord_progression. by rewrite Hp, Hm, Hnorm, Hh, Hb.
  - split; [exact Hall |]. split; [by exists seed |].
    split; [by rewrite Hhl, Hlm | exact Hhe].
Qed.

Lemma generate_music_unregistered scale (r : R) :
  scale ∉ builtin_scales → (generate_music scale r).1 = (None, None, None).
Proof.
  intros Hscale.
  destruct (choice_nonempty chord_progressions r) as (prog & r1 & Hp & _);
    [done |].
  unfold generate_music. rewrite try_generate_steps.
  unfold generate_chord_progression. rewrite Hp.
  unfold generate_melody, bind.
  by rewrite (get_scale_degrees_other scale Hscale).
Qed.

(** X5.  For a registered scale [generate_music] always returns a
    composition, from every state of the random source: a melody of 64
    (letter, duration) pairs with letters of the alphabet and durations of
    the duration set, the first with the duration [0.25]; a harmony of 128
    events, each a letter of the alphabet with the duration [0.25]; and a
    bass that is equal to the melody. *)
Theorem generate_music_composition scale (r : R) :
  scale ∈ builtin_scales →
  ∃ melody harmony r',
    generate_music scale r = ((Some melody, Some harmony, Some melody), r') ∧
    length melody = 64%nat ∧ Forall melody_pair_event melody ∧
    (∃ letter, head melody = Some (VTuple [VStr letter; VFloat (1 # 4)])) ∧
    length harmony = 128%nat ∧
    Forall (λ ev, ∃ h, ev = VTuple [VStr h; VFloat (1 # 4)] ∧ h ∈ notes)
      harmony.
Proof. apply generate_music_registered. Qed.

(** X6.  [generate_music] returns [(None, None, None)] exactly when the
    scale name is not one of the four registered names; no state of the
    random source makes a run over a registered scale fail. *)
Theorem generate_music_none_iff scale (r : R) :
  (generate_music scale r).1 = (None, None, None) ↔ scale ∉ builtin_scales.
Proof.
  split; [| apply generate_music_unregistered].
  intros Hnone Hscale.
  destruct (generate_music_registered scale r Hscale)
    as (melody & harmony & r' & Hg & _).
  rewrite Hg in Hnone. discriminate.
Qed.

End pipeline.

Lemma raw_melody_needs_normalization_witness :
  ["ii"; "V"; "I"] ∈ ChordProgressionGenerator.chord_progressions ∧
  "dorian" ∈ builtin_scales ∧
  ∃ melody r',
    RetroGameMelodyGenerator.generate_melody ["ii"; "V"; "I"] "dorian" 5%N
      = (Ok melody, r') ∧
    RetroGameBassGenerator.generate_bass melody "dorian" = Raise ValueError ∧
    (∃ harmony,
       RetroGameHarmonyGenerator.generate_harmony melody ["ii"; "V"; "I"]
         "dorian" = Ok harmony) ∧
    RetroGameBassGenerator.generate_bass
      (RetroGameMusicGenerator.normalize melody) "dorian"
      = Ok (RetroGameMusicGenerator.normalize melody).
Proof.
  assert (Hp : ["ii"; "V"; "I"] ∈ ChordProgressionGenerator.chord_progressions)
    by compute_done.
  assert (Hs : "dorian" ∈ builtin_scales) by compute_done.
  split; [exact Hp |]. split; [exact Hs |].
  exact (raw_melody_needs_normalization _ _ 5%N Hp Hs).
Defined.

Lemma generate_music_composition_witness :
  "mixolydian" ∈ builtin_scales ∧
  ∃ melody harmony r',
    RetroGameMusicGenerator.generate_music "mixolydian" 2024%N
      = ((Some melody, Some harmony, Some melody), r') ∧
    length melody = 64%nat ∧ Forall melody_pair_event melody ∧
    (∃ letter, head melody = Some (VTuple [VStr letter; VFloat (1 # 4)])) ∧
    length harmony = 128%nat ∧
    Forall (λ ev, ∃ h, ev = VTuple [VStr h; VFloat (1 # 4)] ∧
                       h ∈ MusicScale.notes) harmony.
Proof.
  assert (Hs : "mixolydian" ∈ builtin_scales) by compute_done.
  split; [exact Hs |].
  exact (generate_music_composition "mixolydian" 2024%N Hs).
Defined.

Lemma generate_music_none_iff_witness :
  ("lydian" ∉ builtin_scales) ∧
  (RetroGameMusicGenerator.generate_music "lydian" 1%N).1
    = (None, None, None).
Proof.
  assert (Hout : "lydian" ∉ builtin_scales) by compute_done.
  split; [exact Hout |].
  exact (proj2 (generate_music_none_iff "lydian" 1%N) Hout).
Defined.

(** ** Placing the notes on the MIDI timeline *)

Section midi.
Import MusicScale RetroGameMidiGenerator RetroGameMusicGenerator.
Context {num : Type} (zero : num) (add : num → value → result num).
Context (total : list value → result num).
Implicit Types (d : gmap string Z) (midi calls : list (note_call num)).
Implicit Types (notes : list (value * Z * value)) (time : num).

Lemma add_notes_loop_playable d track notes : ∀ midi time,
  add_notes_loop add d track midi time notes =
  add_notes_loop add d track midi time (playable d notes).
Proof.
  induction notes as [| [[note velocity] dur] rest IH]; intros midi time;
    [done |].
  unfold playable. simpl.
  destruct (py_contains d note) eqn:Hc; simpl.
  - rewrite Hc. destruct (py_getitem_value d note); [| done].
    destruct (add time dur); [apply IH | done].
  - apply IH.
Qed.

(** The calls already received are kept; the new ones follow. *)
Lemma add_notes_loop_app d track notes : ∀ midi time,
  add_notes_loop add d track midi time notes =
  (midi ++ (add_notes_loop add d track [] time notes).1,
   (add_notes_loop add d track [] time notes).2).
Proof.
  induction notes as [| [[note velocity] dur] rest IH]; intros midi time.
  - simpl. by rewrite app_nil_r.
  - simpl. destruct (py_contains d note); [| apply IH].
    destruct (py_getitem_value d note) as [pitch |];
      [| simpl; by rewrite app_nil_r].
    destruct (add time dur) as [time' |]; [| done].
    rewrite (IH (midi ++ _)), (IH [_]). simpl.
    by rewrite <- app_assoc.
Qed.

Lemma py_contains_getitem d note :
  py_contains d note = true →
  ∃ s pitch, note = VStr s ∧ d !! s = Some pitch ∧
             py_getitem_value d note = Ok pitch.
Proof.
  destruct note as [s | q | l]; simpl; try done.
  intros [pitch Hp]%bool_decide_eq_true. exists s, pitch.
  unfold py_getitem. by rewrite Hp.
Qed.

Lemma add_notes_loop_calls d track notes : ∀ time,
  let res := add_notes_loop add d track [] time notes in
  (∀ c, head res.1 = Some c → call_time c = time) ∧
  ∃ done_notes, done_notes `prefix_of` playable d notes ∧
    Forall2 (call_of d track) done_notes res.1 ∧
    (∀ time', res.2 = Ok time' → done_notes = playable d notes).
Proof.
  induction notes as [| [[note velocity] dur] rest IH]; intros time; simpl.
  - split; [done |]. exists []. by repeat split.
  - unfold playable. simpl. destruct (py_contains d note) eqn:Hc;
      [| apply IH].
    destruct (py_contains_getitem d note Hc) as (s & pitch & -> & Hp & ->).
    destruct (add time dur) as [time' |].
    + rewrite add_notes_loop_app. simpl.
      destruct (IH time') as (_ & done_notes & Hpre & Hall & Hok).
      split; [by intros c [= <-] |].
      exists ((VStr s, velocity, dur) :: done_notes).
      split; [by apply prefix_cons |]. split.
      * constructor; [| exact Hall]. repeat split; eauto.
      * intros t Ht. f_equal. by eapply Hok.
    + simpl. split; [by intros c [= <-] |].
      exists [(VStr s, velocity, dur)].
      split; [apply prefix_cons, prefix_nil |].
      split; [| done]. constructor; [| constructor]. repeat split; eauto.
Qed.

(** X13.  [add_notes_to_midi] ignores the entries whose note is not a key
    of the note table: they add no call and do not advance the time, so
    the effect of the function is the one it has on the list without
    them. *)
Theorem add_notes_to_midi_ignores_unknown d midi notes time track :
  add_notes_to_midi add d midi notes time track =
  add_notes_to_midi add d midi (playable d notes) time track.
Proof.
  unfold add_notes_to_midi. by rewrite add_notes_loop_playable.
Qed.

(** X14.  [add_notes_to_midi] keeps the calls the [midi] object already
    holds and appends, in order, one call per entry whose note is a key of
    the table, up to the first exception: the call is on the given track
    and on channel 0, its pitch is the table's value for the note, its
    duration and volume are the entry's; the first new call is at the
    given time.  When no exception is raised, every such entry has its
    call. *)
Theorem add_notes_to_midi_appends d midi notes time track :
  ∃ calls done_notes,
    (add_notes_to_midi add d midi notes time track).1 = midi ++ calls ∧
    done_notes `prefix_of` playable d notes ∧
    Forall2 (call_of d track) done_notes calls ∧
    (∀ c, head calls = Some c → call_time c = time) ∧
    ((add_notes_to_midi add d midi notes time track).2 = Ok ()
       → done_notes = playable d notes).
Proof.
  unfold add_notes_to_midi. rewrite add_notes_loop_app.
  destruct (add_notes_loop_calls d track notes time)
    as (Hhead & done_notes & Hpre & Hall & Hok).
  exists (add_notes_loop add d track [] time notes).1, done_notes.
  simpl. split; [done |]. split; [exact Hpre |]. split; [exact Hall |].
  split; [exact Hhead |].
  destruct (add_notes_loop add d track [] time notes).2 as [t |] eqn:Hr;
    [| discriminate].
  intros _. by eapply Hok.
Qed.

End midi.

Section midi_export.
Import MusicScale RetroGameMidiGenerator RetroGameMusicGenerator.
Context {num : Type} (zero : num) (add : num → value → result num).
Context (total : list value → result num).
Implicit Types (d : gmap string Z) (midi calls : list (note_call num)).
Implicit Types (notes : list (value * Z * value)) (time : num).

Lemma add_notes_to_midi_ok d midi notes time track midi' :
  add_notes_to_midi add d midi notes time track = (midi', Ok ()) →
  ∃ calls, midi' = midi ++ calls ∧
    Forall2 (call_of d track) (playable d notes) calls ∧
    (∀ c, head calls = Some c → call_time c = time).
Proof.
  unfold add_notes_to_midi. rewrite add_notes_loop_app.
  destruct (add_notes_loop_calls add d track notes time)
    as (Hhead & done_notes & _ & Hall & Hok).
  destruct (add_notes_loop add d track [] time notes) as [calls [t |]];
    simpl in *; [| discriminate].
  intros [= <-]. exists calls. rewrite <- (Hok t eq_refl). by repeat split.
Qed.

Lemma with_velocity_ok velocity events notes :
  with_velocity velocity events = Ok notes →
  Forall2 (λ e n, unpack2 e = Ok (n.1.1, n.2) ∧ n.1.2 = velocity)
    events notes.
Proof.
  intros Hn%comprehension_Forall2.
  eapply List.Forall2_impl; [| exact Hn].
  intros e [[note v] dur]. simpl.
  destruct (unpack2 e) as [[note' dur'] |]; [| done]. by intros [= -> -> ->].
Qed.

Lemma calls_volume d track velocity notes calls :
  Forall (λ n, n.1.2 = velocity) notes →
  Forall2 (call_of d track) (playable d notes) calls →
  Forall (λ c, call_track c = track ∧ call_volume c = velocity) calls.
Proof.
  intros Hv Hall.
  assert (Hv' : Forall (λ n, n.1.2 = velocity) (playable d notes)).
  { unfold playable. rewrite List.Forall_forall in Hv.
    apply List.Forall_forall. intros n [Hn _]%List.filter_In. by apply Hv. }
  induction Hall as [| n c ns cs Hc _ IH]; [constructor |].
  inversion_clear Hv' as [| ? ? Hn Hns].
  constructor; [| by apply IH].
  destruct Hc as (Ht & _ & _ & _ & Hvol). split; [done | congruence].
Qed.

(** X15.  When [save_to_midi] writes, the calls it has made are those of
    the melody on track 0 with volume 100, then those of the harmony on
    track 1 with volume 70, then those of the bass on track 2 with volume
    80.  The melody starts at time 0, the harmony at the sum of the melody's
    durations, and the bass at the sum of the harmony's durations alone. *)
Theorem save_to_midi_layout melody harmony bass midi :
  save_to_midi zero add total melody harmony bass = Some midi →
  ∃ melody_notes harmony_notes bass_notes t1 t2 c0 c1 c2,
    with_velocity MELODY_VELOCITY melody = Ok melody_notes ∧
    with_velocity HARMONY_VELOCITY harmony = Ok harmony_notes ∧
    with_velocity BASS_VELOCITY bass = Ok bass_notes ∧
    total (durations melody_notes) = Ok t1 ∧
    total (durations harmony_notes) = Ok t2 ∧
    midi = c0 ++ c1 ++ c2 ∧
    Forall2 (call_of note_to_midi 0) (playable note_to_midi melody_notes) c0 ∧
    Forall2 (call_of note_to_midi 1) (playable note_to_midi harmony_notes) c1 ∧
    Forall2 (call_of note_to_midi 2) (playable note_to_midi bass_notes) c2 ∧
    Forall (λ c, call_track c = 0 ∧ call_volume c = 100) c0 ∧
    Forall (λ c, call_track c = 1 ∧ call_volume c = 70) c1 ∧
    Forall (λ c, call_track c = 2 ∧ call_volume c = 80) c2 ∧
    (∀ c, head c0 = Some c → call_time c = zero) ∧
    (∀ c, head c1 = Some c → call_time c = t1) ∧
    (∀ c, head c2 = Some c → call_time c = t2).
Proof.
  unfold save_to_midi, try_save.
  destruct (with_velocity MELODY_VELOCITY melody) as [mn |] eqn:Hmn;
    [| done].
  destruct (with_velocity HARMONY_VELOCITY harmony) as [hn |] eqn:Hhn;
    [| done].
  destruct (with_velocity BASS_VELOCITY bass) as [bn |] eqn:Hbn; [| done].
  cbn [rbind].
  destruct (add_notes_to_midi add note_to_midi [] mn zero 0)
    as [m0 [[] |]] eqn:H0; [| done]. cbn [rbind].
  destruct (total (durations mn)) as [t1 |] eqn:Ht1; [| done]. cbn [rbind].
  destruct (add_notes_to_midi add note_to_midi m0 hn t1 1)
    as [m1 [[] |]] eqn:H1; [| done]. cbn [rbind].
  destruct (total (durations hn)) as [t2 |] eqn:Ht2; [| done]. cbn [rbind].
  destruct (add_notes_to_midi add note_to_midi m1 bn t2 2)
    as [m2 [[] |]] eqn:H2; [| done]. cbn [rbind].
  intros [= <-].
  apply add_notes_to_midi_ok in H0 as (c0 & -> & Hc0 & Hh0).
  apply add_notes_to_midi_ok in H1 as (c1 & -> & Hc1 & Hh1).
  apply add_notes_to_midi_ok in H2 as (c2 & -> & Hc2 & Hh2).
  exists mn, hn, bn, t1, t2, c0, c1, c2.
  assert (Hv : ∀ v events ns, with_velocity v events = Ok ns →
                 Forall (λ n, n.1.2 = v) ns).
  { intros v events ns Hns%with_velocity_ok.
    induction Hns as [| ? ? ? ? [_ ?] _ IH]; by constructor. }
  repeat (split; [first [done | by rewrite <- app_assoc] |]).
  split; [apply (calls_volume note_to_midi 0 MELODY_VELOCITY mn);
          [by eapply Hv | done] |].
  split; [apply (calls_volume note_to_midi 1 HARMONY_VELOCITY hn);
          [by eapply Hv | done] |].
  split; [apply (calls_volume note_to_midi 2 BASS_VELOCITY bn);
          [by eapply Hv | done] |].
  done.
Qed.

Lemma comprehension_some_raise {A B} (f : A → result B) (l : list A) :
  Exists (λ x, ∃ e, f x = Raise e) l → ∃ e, comprehension f l = Raise e.
Proof.
  induction 1 as [x l [e Hx] | x l _ [e IH]]; simpl.
  - exists e. by rewrite Hx.
  - destruct (f x) as [y |]; cbn [rbind]; [| by eexists].
    exists e. by rewrite IH.
Qed.

Lemma with_velocity_raise velocity events :
  Exists (λ e, ∃ err, unpack2 e = Raise err) events →
  ∃ err, with_velocity velocity events = Raise err.
Proof.
  intros Hex. apply comprehension_some_raise.
  eapply List.Exists_impl; [| exact Hex].
  intros e [err He]. exists err. by rewrite He.
Qed.

(** X17.  When an entry of the melody, of the harmony or of the bass cannot
    be unpacked into a note and a duration (a bare letter, for instance),
    [save_to_midi] writes nothing: the exception is caught and no call made
    so far reaches a file. *)
Theorem save_to_midi_malformed_entry melody harmony bass :
  Exists (λ e, ∃ err, unpack2 e = Raise err) (melody ++ harmony ++ bass) →
  save_to_midi zero add total melody harmony bass = None.
Proof.
  rewrite !Exists_app. intros Hex. unfold save_to_midi, try_save.
  destruct (with_velocity MELODY_VELOCITY melody) as [mn |] eqn:Hmn;
    [| done].
  destruct (with_velocity HARMONY_VELOCITY harmony) as [hn |] eqn:Hhn;
    [| done].
  destruct (with_velocity BASS_VELOCITY bass) as [bn |] eqn:Hbn; [| done].
  destruct Hex as [Hex | [Hex | Hex]];
    apply (with_velocity_raise) with (velocity := 0) in Hex as Hex';
    [destruct (with_velocity_raise MELODY_VELOCITY _ Hex)
    | destruct (with_velocity_raise HARMONY_VELOCITY _ Hex)
    | destruct (with_velocity_raise BASS_VELOCITY _ Hex)]; congruence.
Qed.

End midi_export.

Section midi_complete.
Import MusicScale RetroGameMidiGenerator RetroGameMusicGenerator.
Context {num : Type} (zero : num) (add : num → value → result num).
Context (total : list value → result num).
(** Numbers can be added and summed: adding a float to a time, and summing
    floats, raise nothing. *)
Hypothesis add_float : ∀ time q, ∃ time', add time (VFloat q) = Ok time'.
Hypothesis total_floats : ∀ durs,
  Forall (λ v, ∃ q, v = VFloat q) durs → ∃ t, total durs = Ok t.

Lemma with_velocity_playable velocity events :
  Forall playable_event events →
  ∃ ns, with_velocity velocity events = Ok ns ∧
        length ns = length events ∧ Forall playable_note ns.
Proof.
  intros Hev. apply comprehension_total. intros e He.
  rewrite List.Forall_forall in Hev.
  destruct (Hev e) as (letter & q & -> & Hin); [by apply list_elem_of_In |].
  eexists. split; [reflexivity |]. by exists letter, q.
Qed.

Lemma note_in_table letter :
  letter ∈ notes →
  py_contains note_to_midi (VStr letter) = true ∧
  ∃ pitch, py_getitem_value note_to_midi (VStr letter) = Ok pitch.
Proof.
  unfold notes. rewrite !elem_of_cons, elem_of_nil.
  intros [-> | [-> | [-> | [-> | [-> | [-> | [-> | []]]]]]]];
    (split; [reflexivity | eexists; reflexivity]).
Qed.

Lemma add_notes_loop_complete track notes :
  Forall playable_note notes → ∀ midi time,
  ∃ midi' time',
    add_notes_loop add note_to_midi track midi time notes = (midi', Ok time') ∧
    length midi' = (length midi + length notes)%nat.
Proof.
  induction 1 as [| [[note velocity] dur] rest Hn _ IH]; intros midi time.
  - exists midi, time. simpl. split; [done | lia].
  - destruct Hn as (letter & q & Hnote & Hin & Hdur). simpl in Hnote, Hdur.
    subst note dur. destruct (note_in_table letter Hin) as [Hc [pitch Hp]].
    cbn [add_notes_loop]. rewrite Hc, Hp.
    destruct (add_float time q) as [time1 ->].
    destruct (IH (midi ++ [NoteCall track 0 pitch time (VFloat q) velocity])
                time1) as (midi' & time' & -> & Hlen).
    exists midi', time'. split; [done |].
    rewrite Hlen, length_app. simpl. lia.
Qed.

Lemma durations_floats ns :
  Forall playable_note ns → Forall (λ v, ∃ q, v = VFloat q) (durations ns).
Proof.
  intros Hns. unfold durations. apply Forall_fmap.
  eapply List.Forall_impl; [| exact Hns].
  intros n (letter & q & _ & _ & Hq). by exists q.
Qed.

Lemma save_to_midi_playable melody harmony bass :
  Forall playable_event melody → Forall playable_event harmony →
  Forall playable_event bass →
  ∃ midi,
    save_to_midi zero add total melody harmony bass = Some midi ∧
    length midi = (length melody + length harmony + length bass)%nat.
Proof.
  intros Hm Hh Hb. unfold save_to_midi, try_save, add_notes_to_midi.
  destruct (with_velocity_playable MELODY_VELOCITY melody Hm)
    as (mn & -> & Hlm & Hmn).
  destruct (with_velocity_playable HARMONY_VELOCITY harmony Hh)
    as (hn & -> & Hlh & Hhn).
  destruct (with_velocity_playable BASS_VELOCITY bass Hb)
    as (bn & -> & Hlb & Hbn).
  cbn [rbind].
  destruct (add_notes_loop_complete 0 mn Hmn [] zero)
    as (m0 & ? & -> & Hl0). cbn [rbind].
  destruct (total_floats _ (durations_floats mn Hmn)) as [t1 ->].
  cbn [rbind].
  destruct (add_notes_loop_complete 1 hn Hhn m0 t1)
    as (m1 & ? & -> & Hl1). cbn [rbind].
  destruct (total_floats _ (durations_floats hn Hhn)) as [t2 ->].
  cbn [rbind].
  destruct (add_notes_loop_complete 2 bn Hbn m1 t2)
    as (m2 & ? & -> & Hl2). cbn [rbind].
  exists m2. split; [done |]. simpl in Hl0. lia.
Qed.

(** X16.  When every event of the melody, the harmony and the bass is a
    letter of the alphabet with a float duration, [save_to_midi] writes,
    and it makes one [addNote] call per event: no note is dropped. *)
Theorem save_to_midi_complete melody harmony bass :
  Forall playable_event melody → Forall playable_event harmony →
  Forall playable_event bass →
  ∃ midi,
    save_to_midi zero add total melody harmony bass = Some midi ∧
    length midi = (length melody + length harmony + length bass)%nat.
Proof. apply save_to_midi_playable. Qed.

Context `{RandomSource R}.

(** X18.  The main program over a registered scale: [generate_music]
    returns a composition and [save_to_midi] writes it with 256 [addNote]
    calls (64 for the melody, 128 for the harmony, 64 for the bass). *)
Theorem generated_music_is_saved scale (r : R) :
  scale ∈ builtin_scales →
  ∃ melody harmony bass r' midi,
    generate_music scale r = ((Some melody, Some harmony, Some bass), r') ∧
    save_to_midi zero add total melody harmony bass = Some midi ∧
    length midi = 256%nat.
Proof.
  intros Hscale.
  destruct (generate_music_registered scale r Hscale)
    as (melody & harmony & r' & Hg & Hlm & Hm & _ & Hlh & Hh).
  assert (Hm' : Forall playable_event melody).
  { eapply List.Forall_impl; [| exact Hm].
    intros e (letter & q & -> & Hin & _). by exists letter, q. }
  assert (Hh' : Forall playable_event harmony).
  { eapply List.Forall_impl; [| exact Hh].
    intros e (h & -> & Hin). by exists h, (1 # 4)%Q. }
  destruct (save_to_midi_playable melody harmony melody Hm' Hh' Hm')
    as (midi & Hs & Hl).
  exists melody, harmony, melody, r', midi.
  split; [exact Hg |]. split; [exact Hs |]. rewrite Hl, Hlm, Hlh. done.
Qed.

End midi_complete.

(** ** The export, run with exact rational times *)

Section rational_times.
Import RetroGameMidiGenerator RetroGameMusicGenerator.

Lemma rational_add_float (time q : Q) :
  ∃ time', rational_add time (VFloat q) = Ok time'.
Proof. by eexists. Qed.

Lemma rational_sum_floats durs :
  Forall (λ v, ∃ q, v = VFloat q) durs → ∃ t, rational_sum durs = Ok t.
Proof.
  unfold rational_sum. generalize 0%Q.
  induction durs as [| v durs IH]; intros acc Hd; [by eexists |].
  inversion_clear Hd as [| ? ? [q ->] Hd']. simpl. by apply IH.
Qed.

End rational_times.

Lemma add_notes_to_midi_appends_witness :
  (RetroGameMidiGenerator.add_notes_to_midi
     RetroGameMusicGenerator.rational_add
     RetroGameMusicGenerator.note_to_midi []
     [(VStr "C", 100, VFloat (1 # 4)); (VStr "H", 100, VFloat (1 # 2));
      (VStr "E", 100, VFloat (3 # 4))] 0%Q 0).2 = Ok () ∧
  ∃ calls done_notes,
    (RetroGameMidiGenerator.add_notes_to_midi
       RetroGameMusicGenerator.rational_add
       RetroGameMusicGenerator.note_to_midi []
       [(VStr "C", 100, VFloat (1 # 4)); (VStr "H", 100, VFloat (1 # 2));
        (VStr "E", 100, VFloat (3 # 4))] 0%Q 0).1 = [] ++ calls ∧
    done_notes `prefix_of`
      playable RetroGameMusicGenerator.note_to_midi
        [(VStr "C", 100, VFloat (1 # 4)); (VStr "H", 100, VFloat (1 # 2));
         (VStr "E", 100, VFloat (3 # 4))] ∧
    Forall2 (call_of RetroGameMusicGenerator.note_to_midi 0)
      done_notes calls ∧
    (∀ c, head calls = Some c → RetroGameMidiGenerator.call_time c = 0%Q) ∧
    ((RetroGameMidiGenerator.add_notes_to_midi
        RetroGameMusicGenerator.rational_add
        RetroGameMusicGenerator.note_to_midi []
        [(VStr "C", 100, VFloat (1 # 4)); (VStr "H", 100, VFloat (1 # 2));
         (VStr "E", 100, VFloat (3 # 4))] 0%Q 0).2 = Ok ()
     → done_notes =
       playable RetroGameMusicGenerator.note_to_midi
         [(VStr "C", 100, VFloat (1 # 4)); (VStr "H", 100, VFloat (1 # 2));
          (VStr "E", 100, VFloat (3 # 4))]).
Proof.
  split; [reflexivity |].
  exact (add_notes_to_midi_appends RetroGameMusicGenerator.rational_add
           RetroGameMusicGenerator.note_to_midi [] _ 0%Q 0).
Defined.

Lemma save_to_midi_layout_witness :
  ∃ midi,
    RetroGameMusicGenerator.save_to_midi 0%Q
      RetroGameMusicGenerator.rational_add
      RetroGameMusicGenerator.rational_sum
      [VTuple [VStr "C"; VFloat (1 # 4)]; VTuple [VStr "E"; VFloat (3 # 2)]]
      [VTuple [VStr "G"; VFloat (1 # 4)]; VTuple [VStr "A"; VFloat (1 # 4)]]
      [VTuple [VStr "C"; VFloat (1 # 4)]; VTuple [VStr "E"; VFloat (3 # 2)]]
    = Some midi ∧
    ∃ melody_notes harmony_notes bass_notes t1 t2 c0 c1 c2,
      RetroGameMusicGenerator.with_velocity MELODY_VELOCITY
        [VTuple [VStr "C"; VFloat (1 # 4)]; VTuple [VStr "E"; VFloat (3 # 2)]]
        = Ok melody_notes ∧
      RetroGameMusicGenerator.with_velocity HARMONY_VELOCITY
        [VTuple [VStr "G"; VFloat (1 # 4)]; VTuple [VStr "A"; VFloat (1 # 4)]]
        = Ok harmony_notes ∧
      RetroGameMusicGenerator.with_velocity BASS_VELOCITY
        [VTuple [VStr "C"; VFloat (1 # 4)]; VTuple [VStr "E"; VFloat (3 # 2)]]
        = Ok bass_notes ∧
      RetroGameMusicGenerator.rational_sum
        (RetroGameMusicGenerator.durations melody_notes) = Ok t1 ∧
      RetroGameMusicGenerator.rational_sum
        (RetroGameMusicGenerator.durations harmony_notes) = Ok t2 ∧
      midi = c0 ++ c1 ++ c2 ∧
      Forall2 (call_of RetroGameMusicGenerator.note_to_midi 0)
        (playable RetroGameMusicGenerator.note_to_midi melody_notes) c0 ∧
      Forall2 (call_of RetroGameMusicGenerator.note_to_midi 1)
        (playable RetroGameMusicGenerator.note_to_midi harmony_notes) c1 ∧
      Forall2 (call_of RetroGameMusicGenerator.note_to_midi 2)
        (playable RetroGameMusicGenerator.note_to_midi bass_notes) c2 ∧
      Forall (λ c, RetroGameMidiGenerator.call_track c = 0 ∧
                   RetroGameMidiGenerator.call_volume c = 100) c0 ∧
      Forall (λ c, RetroGameMidiGenerator.call_track c = 1 ∧
                   RetroGameMidiGenerator.call_volume c = 70) c1 ∧
      Forall (λ c, RetroGameMidiGenerator.call_track c = 2 ∧
                   RetroGameMidiGenerator.call_volume c = 80) c2 ∧
      (∀ c, head c0 = Some c → RetroGameMidiGenerator.call_time c = 0%Q) ∧
      (∀ c, head c1 = Some c → RetroGameMidiGenerator.call_time c = t1) ∧
      (∀ c, head c2 = Some c → RetroGameMidiGenerator.call_time c = t2).
Proof.
  eassert (Hs : RetroGameMusicGenerator.save_to_midi 0%Q
      RetroGameMusicGenerator.rational_add
      RetroGameMusicGenerator.rational_sum
      [VTuple [VStr "C"; VFloat (1 # 4)]; VTuple [VStr "E"; VFloat (3 # 2)]]
      [VTuple [VStr "G"; VFloat (1 # 4)]; VTuple [VStr "A"; VFloat (1 # 4)]]
      [VTuple [VStr "C"; VFloat (1 # 4)]; VTuple [VStr "E"; VFloat (3 # 2)]]
    = Some _) by (vm_compute; reflexivity).
  eexists. split; [exact Hs |].
  exact (save_to_midi_layout _ _ _ _ _ _ _ Hs).
Defined.

Lemma save_to_midi_malformed_entry_witness :
  Exists (λ e, ∃ err, unpack2 e = Raise err)
    ([VStr "C"; VTuple [VStr "E"; VFloat (3 # 2)]] ++ [] ++ []) ∧
  RetroGameMusicGenerator.save_to_midi 0%Q
    RetroGameMusicGenerator.rational_add
    RetroGameMusicGenerator.rational_sum
    [VStr "C"; VTuple [VStr "E"; VFloat (3 # 2)]] [] [] = None.
Proof.
  assert (Hex : Exists (λ e, ∃ err, unpack2 e = Raise err)
            ([VStr "C"; VTuple [VStr "E"; VFloat (3 # 2)]] ++ [] ++ []))
    by (left; by eexists).
  split; [exact Hex |].
  exact (save_to_midi_malformed_entry _ _ _ _ _ _ Hex).
Defined.

Lemma save_to_midi_complete_witness :
  Forall playable_event [VTuple [VStr "C"; VFloat (1 # 4)]] ∧
  Forall playable_event
    [VTuple [VStr "G"; VFloat (1 # 4)]; VTuple [VStr "A"; VFloat (1 # 4)]] ∧
  Forall playable_event [VTuple [VStr "B"; VFloat (2 # 1)]] ∧
  ∃ midi,
    RetroGameMusicGenerator.save_to_midi 0%Q
      RetroGameMusicGenerator.rational_add
      RetroGameMusicGenerator.rational_sum
      [VTuple [VStr "C"; VFloat (1 # 4)]]
      [VTuple [VStr "G"; VFloat (1 # 4)]; VTuple [VStr "A"; VFloat (1 # 4)]]
      [VTuple [VStr "B"; VFloat (2 # 1)]] = Some midi ∧
    length midi =
      (length [VTuple [VStr "C"; VFloat (1 # 4)]] +
       length [VTuple [VStr "G"; VFloat (1 # 4)];
               VTuple [VStr "A"; VFloat (1 # 4)]] +
       length [VTuple [VStr "B"; VFloat (2 # 1)]])%nat.
Proof.
  assert (Hev : ∀ letter q, letter ∈ MusicScale.notes →
                  playable_event (VTuple [VStr letter; VFloat q]))
    by (intros letter q Hin; by exists letter, q).
  assert (Hm : Forall playable_event [VTuple [VStr "C"; VFloat (1 # 4)]])
    by (repeat constructor; apply Hev; compute_done).
  assert (Hh : Forall playable_event
    [VTuple [VStr "G"; VFloat (1 # 4)]; VTuple [VStr "A"; VFloat (1 # 4)]])
    by (repeat constructor; apply Hev; compute_done).
  assert (Hb : Forall playable_event [VTuple [VStr "B"; VFloat (2 # 1)]])
    by (repeat constructor; apply Hev; compute_done).
  split; [exact Hm |]. split; [exact Hh |]. split; [exact Hb |].
  exact (save_to_midi_complete 0%Q RetroGameMusicGenerator.rational_add
           RetroGameMusicGenerator.rational_sum
           rational_add_float rational_sum_floats _ _ _ Hm Hh Hb).
Defined.

Lemma generated_music_is_saved_witness :
  "minor" ∈ builtin_scales ∧
  ∃ melody harmony bass r' midi,
    RetroGameMusicGenerator.generate_music "minor" 42%N
      = ((Some melody, Some harmony, Some bass), r') ∧
    RetroGameMusicGenerator.save_to_midi 0%Q
      RetroGameMusicGenerator.rational_add
      RetroGameMusicGenerator.rational_sum melody harmony bass = Some midi ∧
    length midi = 256%nat.
Proof.
  assert (Hs : "minor" ∈ builtin_scales) by compute_done.
  split; [exact Hs |].
  exact (generated_music_is_saved 0%Q RetroGameMusicGenerator.rational_add
           RetroGameMusicGenerator.rational_sum
           rational_add_float rational_sum_floats "minor" 42%N Hs).
Defined.

(** ** Consecutive notes, and what the harmony does not read *)

Section timeline.
Import RetroGameMidiGenerator RetroGameMusicGenerator.
Context {num : Type} (add : num → value → result num).

Lemma add_notes_loop_back_to_back (d : gmap string Z) track notes :
  ∀ time, back_to_back add (add_notes_loop add d track [] time notes).1.
Proof.
  induction notes as [| [[note velocity] dur] rest IH]; intros time.
  - intros i c c' Hc. simpl in Hc. by destruct i.
  - simpl. destruct (py_contains d note) eqn:Hc; [| apply IH].
    destruct (py_contains_getitem d note Hc) as (s & pitch & -> & Hp & ->).
    destruct (add time dur) as [time' |] eqn:Hadd.
    + rewrite add_notes_loop_app. simpl.
      destruct (add_notes_loop_calls add d track rest time') as [Hhead _].
      intros [| i] c c'; simpl.
      * intros [= <-] Hc'. simpl. rewrite Hadd. f_equal. symmetry.
        apply Hhead. by rewrite head_lookup.
      * apply IH.
    + simpl. intros i c c' _ Hc'. simpl in Hc'. by destruct i.
Qed.

(** X19.  The calls [add_notes_to_midi] appends are back to back: each
    starts at the time of the previous call plus the previous call's
    duration, whatever entries were skipped in between. *)
Theorem add_notes_to_midi_back_to_back (d : gmap string Z) midi notes
    time track :
  ∃ calls,
    (add_notes_to_midi add d midi notes time track).1 = midi ++ calls ∧
    back_to_back add calls.
Proof.
  unfold add_notes_to_midi. rewrite add_notes_loop_app.
  exists (add_notes_loop add d track [] time notes).1. simpl.
  split; [done | apply add_notes_loop_back_to_back].
Qed.

End timeline.

Section harmony_reads.
Import RetroGameHarmonyGenerator.

Lemma comprehension_ext {A B} (f : A → result B) (l l' : list A) :
  Forall2 (λ x x', f x = f x') l l' → comprehension f l = comprehension f l'.
Proof.
  induction 1 as [| x x' l l' Hx _ IH]; [done |].
  simpl. by rewrite Hx, IH.
Qed.

Lemma harmony_entry_same_note offset pool e e' :
  same_note e e' → harmony_entry offset pool e = harmony_entry offset pool e'.
Proof. intros [-> | (note & rest & rest' & -> & ->)]; reflexivity. Qed.

(** X20.  [generate_harmony] reads only the first component of a melody
    pair: two melodies whose entries agree on it (in particular two
    melodies that differ in their durations only) have the same harmony,
    or raise the same exception. *)
Theorem generate_harmony_ignores_durations melody melody' prog scale :
  Forall2 same_note melody melody' →
  generate_harmony melody prog scale = generate_harmony melody' prog scale.
Proof.
  intros Hm. unfold generate_harmony.
  destruct (extend_harmonic_notes [] prog scale) as [pool |]; [| done].
  cbn [rbind].
  rewrite (comprehension_ext (harmony_entry 2 pool) melody melody'),
          (comprehension_ext (harmony_entry 4 pool) melody melody'); [done | |];
    (eapply List.Forall2_impl; [| exact Hm]);
    intros e e'; apply harmony_entry_same_note.
Qed.

End harmony_reads.

Lemma generate_harmony_ignores_durations_witness :
  Forall2 same_note
    [VTuple [VStr "D"; VFloat (1 # 2)]; VStr "C"]
    [VTuple [VStr "D"; VFloat (2 # 1)]; VStr "C"] ∧
  RetroGameHarmonyGenerator.generate_harmony
    [VTuple [VStr "D"; VFloat (1 # 2)]; VStr "C"] ["I"; "V"] "minor"
  = RetroGameHarmonyGenerator.generate_harmony
      [VTuple [VStr "D"; VFloat (2 # 1)]; VStr "C"] ["I"; "V"] "minor".
Proof.
  assert (Hm : Forall2 same_note
    [VTuple [VStr "D"; VFloat (1 # 2)]; VStr "C"]
    [VTuple [VStr "D"; VFloat (2 # 1)]; VStr "C"]).
  { constructor; [right; by eexists _, _, _ |].
    constructor; [by left | constructor]. }
  split; [exact Hm |].
  exact (generate_harmony_ignores_durations _ _ ["I"; "V"] "minor" Hm).
Defined.

(** ** The melody over a progression of weak chords *)

Section melody_steps.
Import MusicScale ChordProgressionGenerator RetroGameMelodyGenerator.
Context `{RandomSource R}.

Lemma no_repeat_snoc letters a :
  no_repeat letters → (∀ x, list.last letters = Some x → x ≠ a) →
  no_repeat (letters ++ [a]).
Proof.
  induction letters as [| x [| y rest] IH]; intros Hn Hlast; [done | |].
  - simpl. split; [by apply Hlast | done].
  - destruct Hn as [Hxy Hn]. split; [exact Hxy |]. by apply IH.
Qed.

Lemma notes_lookup_inj (i j : Z) letter :
  0 ≤ i < 7 → 0 ≤ j < 7 →
  notes !! Z.to_nat i = Some letter → notes !! Z.to_nat j = Some letter →
  i = j.
Proof.
  intros Hi Hj Hli Hlj.
  assert (Hnd : NoDup notes) by compute_done.
  pose proof (NoDup_lookup _ _ _ _ Hnd Hli Hlj). lia.
Qed.

(** Over a weak chord the step is between 1 and 6, so the letter
    changes. *)
Lemma melody_step_weak prog degs mel cur (r : R) :
  prog ≠ [] → Forall weak_symbol prog → length degs = 7%nat →
  ∃ letter d cur' r',
    melody_step prog degs (mel, cur) r
      = (Ok (mel ++ [VTuple [VStr letter; VFloat d]], cur'), r') ∧
    0 ≤ cur' < 7 ∧ cur' ≠ cur mod 7 ∧
    notes !! Z.to_nat cur' = Some letter.
Proof.
  intros Hne Hw Hlen. unfold melody_step, bind.
  destruct (choice_nonempty prog r Hne) as (sym & r1 & -> & Hsym).
  rewrite List.Forall_forall in Hw.
  destruct (Hw sym) as (cd & Hcd & Hweak); [by apply list_elem_of_In |].
  unfold lift, py_getitem. rewrite Hcd.
  rewrite bool_decide_eq_false_2 by exact Hweak.
  destruct (choice_nonempty [1; 2; 3; 4; 5; 6] r1) as (step & r2 & -> & Hstep);
    [done |].
  unfold py_mod. rewrite Hlen. change (Z.of_nat 7 =? 0) with false.
  cbv iota.
  destruct (choice_nonempty note_durations r2) as (d & r3 & -> & _);
    [done |].
  assert (Hcur : 0 ≤ (cur + step) mod Z.of_nat 7 < 7)
    by (apply Z.mod_pos_bound; lia).
  destruct (py_index_in_range notes ((cur + step) mod Z.of_nat 7))
    as (letter & -> & Hl); [exact Hcur |].
  exists letter, d, ((cur + step) mod Z.of_nat 7), r3.
  split; [reflexivity |]. split; [exact Hcur |]. split; [| exact Hl].
  assert (1 ≤ step ≤ 6).
  { revert Hstep. rewrite !elem_of_cons, elem_of_nil. lia. }
  change (Z.of_nat 7) with 7. Z.div_mod_to_equations. lia.
Qed.

Lemma melody_loop_weak prog degs n : ∀ mel cur (r : R) last_letter,
  prog ≠ [] → Forall weak_symbol prog → length degs = 7%nat →
  no_repeat (omap letter_of mel) →
  list.last (omap letter_of mel) = Some last_letter →
  notes !! Z.to_nat (cur mod 7) = Some last_letter →
  ∃ mel' cur' r',
    for_range n (melody_step prog degs) (mel, cur) r = (Ok (mel', cur'), r') ∧
    no_repeat (omap letter_of mel').
Proof.
  induction n as [| n IH]; intros mel cur r l0 Hne Hw Hlen Hnr Hlast Hl0.
  - by exists mel, cur, r.
  - destruct (melody_step_weak prog degs mel cur r Hne Hw Hlen)
      as (letter & d & cur1 & r1 & Hstep & Hcur1 & Hneq & Hl1).
    rewrite for_range_S, Hstep.
    apply (IH _ cur1 r1 letter); try done.
    + rewrite omap_app. simpl. apply no_repeat_snoc; [exact Hnr |].
      intros x Hx. rewrite Hlast in Hx. simplify_eq. intros ->.
      apply Hneq. symmetry.
      eapply notes_lookup_inj;
        [apply Z.mod_pos_bound; lia | exact Hcur1 | eassumption
        | eassumption].
    + rewrite omap_app. simpl. by rewrite list.last_snoc.
    + by rewrite Z.mod_small.
Qed.

(** X21.  Over a registered scale and a non-empty progression of weak
    chords only (ii, iii, vi), [generate_melody] never repeats a letter:
    no two consecutive notes of the melody have the same letter. *)
Theorem generate_melody_no_repeat prog scale (r : R) :
  prog ≠ [] → Forall weak_symbol prog → scale ∈ builtin_scales →
  ∃ melody r',
    generate_melody prog scale r = (Ok melody, r') ∧
    no_repeat (omap letter_of melody).
Proof.
  intros Hne Hw Hscale.
  destruct (get_scale_degrees_builtin scale Hscale) as [Hlen _].
  assert (Hdegs : get_scale_degrees scale ≠ [])
    by (intros E; rewrite E in Hlen; discriminate).
  destruct (choice_nonempty (get_scale_degrees scale) r Hdegs)
    as (d & r0 & Hd & _).
  assert (Hseed : 0 ≤ d mod 7 < 7) by (apply Z.mod_pos_bound; lia).
  destruct (py_index_in_range notes (d mod 7) Hseed) as (seed & Hidx & Hl).
  destruct (melody_loop_weak prog (get_scale_degrees scale)
              (MELODY_LENGTH - 1) [VStr seed] d r0 seed)
    as (mel' & cur' & r' & Hloop & Hnr); try done.
  exists mel', r'. split; [| exact Hnr].
  unfold generate_melody, bind. rewrite Hd.
  unfold lift, py_mod. change (Z.of_nat (length notes)) with 7.
  change (7 =? 0) with false. cbv iota. rewrite Hidx.
  change ([] ++ [VStr seed]) with [VStr seed]. by rewrite Hloop.
Qed.

End melody_steps.

Lemma generate_melody_no_repeat_witness :
  ["ii"; "vi"] ≠ [] ∧ Forall weak_symbol ["ii"; "vi"] ∧
  "major" ∈ builtin_scales ∧
  ∃ melody r',
    RetroGameMelodyGenerator.generate_melody ["ii"; "vi"] "major" 11%N
      = (Ok melody, r') ∧
    no_repeat (omap letter_of melody).
Proof.
  assert (Hne : ["ii"; "vi"] ≠ []) by discriminate.
  assert (Hw : Forall weak_symbol ["ii"; "vi"]).
  { repeat constructor; eexists; (split; [reflexivity |]);
      rewrite !not_elem_of_cons; repeat split; try discriminate;
      apply not_elem_of_nil. }
  assert (Hs : "major" ∈ builtin_scales) by compute_done.
  split; [exact Hne |]. split; [exact Hw |]. split; [exact Hs |].
  exact (generate_melody_no_repeat ["ii"; "vi"] "major" 11%N Hne Hw Hs).
Defined.
